(** * Brick breaker: a shallow embedding of [main.js] and its properties

    The simulation core of the game (paddle, ball, brick grid, score, lives
    and the game mode) is embedded as pure functions over an explicit game
    state.  JavaScript numbers are modelled as exact rationals ([Q]): every
    arithmetic operation of the source is kept as written, rounding is not
    modelled.  Counters that the source only ever moves by whole steps
    ([score], [lives]) are integers ([Z]).  The module-level mutable
    variables of the source become the fields of one [Game] record, and each
    function that mutates them becomes a function from state to state.
    [Math.random()] is an explicit argument of every function that may
    consume it.  Drawing and canvas sizing do not touch the game state and
    are left out; the pointer and keyboard handlers and the frame callback
    are the events of the step relation. *)

From Stdlib Require Import String.
From Stdlib Require Import QArith Qabs Qminmax ZArith List Bool Lia Lqa.
Import ListNotations.

Local Open Scope Q_scope.

(** ** Numbers: comparisons and [Math] functions *)

(** [a < b] and [a > b] as tests of the source. *)
Definition Qltb (a b : Q) : bool := negb (Qle_bool b a).
Definition Qgtb (a b : Q) : bool := Qltb b a.

(** [a <= b] and [a >= b]. *)
Definition Qleb (a b : Q) : bool := Qle_bool a b.
Definition Qgeb (a b : Q) : bool := Qle_bool b a.

(** [a === b] on numbers. *)
Definition Qeqb (a b : Q) : bool := Qeq_bool a b.

(** [Math.min] with four arguments, as called in [reflectBallFromRect]. *)
Definition Qmin4 (a b c d : Q) : Q := Qmin (Qmin (Qmin a b) c) d.

(** Game constants - internal coordinate system. *)
Definition GAME_W : Q := 360.
Definition GAME_H : Q := 640.
Definition BALL_SPEED_X : Q := 180.
Definition BALL_SPEED_Y : Q := 260.
Definition MAX_DT : Q := 1 / 30.
Definition PADDLE_SMOOTHING : Q := 20.

(** Helper: clamp value between lo and hi. *)
Definition clamp (v lo hi : Q) : Q := Qmax lo (Qmin hi v).

(** ** Entities *)

(** The geometry every collidable object exposes: the fields [x], [y], [w]
    and [h] that [reflectBallFromRect] reads from its argument. *)
Module Rect.
Record t : Type := mk { x : Q; y : Q; w : Q; h : Q }.
End Rect.

Module Paddle.
Record t : Type := mk { x : Q; y : Q; w : Q; h : Q; targetX : Q }.
End Paddle.

Module Ball.
Record t : Type := mk { x : Q; y : Q; vx : Q; vy : Q; r : Q }.
End Ball.

Module Brick.
Record t : Type := mk { x : Q; y : Q; w : Q; h : Q; active : bool }.
End Brick.

Module Input.
Record t : Type := mk { pointerActive : bool; pointerX : Q; grabOffset : Q }.
End Input.

(** The objects [reflectBallFromRect] is called on (the paddle and the
    bricks) are used through their rectangle only. *)
Class Rectangular (A : Type) : Type := rect_of : A -> Rect.t.

#[export] Instance Rect_Rectangular : Rectangular Rect.t := fun r => r.

#[export] Instance Paddle_Rectangular : Rectangular Paddle.t :=
  fun p => Rect.mk (Paddle.x p) (Paddle.y p) (Paddle.w p) (Paddle.h p).

#[export] Instance Brick_Rectangular : Rectangular Brick.t :=
  fun b => Rect.mk (Brick.x b) (Brick.y b) (Brick.w b) (Brick.h b).

(** menu | playing | paused | win | lose *)
Inductive Mode : Type := menu | playing | paused | win | lose.

Definition Mode_eqb (a b : Mode) : bool :=
  match a, b with
  | menu, menu | playing, playing | paused, paused | win, win | lose, lose => true
  | _, _ => false
  end.

(** The module-level state of the source. *)
Record Game : Type := mkGame {
  state : Mode;
  score : Z;
  lives : Z;
  paddle : Paddle.t;
  ball : Ball.t;
  bricks : list Brick.t;
  input : Input.t
}.

(** Field updates. *)
Definition set_state (m : Mode) (g : Game) : Game :=
  mkGame m (score g) (lives g) (paddle g) (ball g) (bricks g) (input g).
Definition set_score (n : Z) (g : Game) : Game :=
  mkGame (state g) n (lives g) (paddle g) (ball g) (bricks g) (input g).
Definition set_lives (n : Z) (g : Game) : Game :=
  mkGame (state g) (score g) n (paddle g) (ball g) (bricks g) (input g).
Definition set_paddle (p : Paddle.t) (g : Game) : Game :=
  mkGame (state g) (score g) (lives g) p (ball g) (bricks g) (input g).
Definition set_ball (b : Ball.t) (g : Game) : Game :=
  mkGame (state g) (score g) (lives g) (paddle g) b (bricks g) (input g).
Definition set_bricks (bs : list Brick.t) (g : Game) : Game :=
  mkGame (state g) (score g) (lives g) (paddle g) (ball g) bs (input g).
Definition set_input (i : Input.t) (g : Game) : Game :=
  mkGame (state g) (score g) (lives g) (paddle g) (ball g) (bricks g) i.

Definition Ball_set_x (v : Q) (b : Ball.t) : Ball.t :=
  Ball.mk v (Ball.y b) (Ball.vx b) (Ball.vy b) (Ball.r b).
Definition Ball_set_y (v : Q) (b : Ball.t) : Ball.t :=
  Ball.mk (Ball.x b) v (Ball.vx b) (Ball.vy b) (Ball.r b).
Definition Ball_set_vx (v : Q) (b : Ball.t) : Ball.t :=
  Ball.mk (Ball.x b) (Ball.y b) v (Ball.vy b) (Ball.r b).
Definition Ball_set_vy (v : Q) (b : Ball.t) : Ball.t :=
  Ball.mk (Ball.x b) (Ball.y b) (Ball.vx b) v (Ball.r b).

Definition Paddle_set_x (v : Q) (p : Paddle.t) : Paddle.t :=
  Paddle.mk v (Paddle.y p) (Paddle.w p) (Paddle.h p) (Paddle.targetX p).
Definition Paddle_set_targetX (v : Q) (p : Paddle.t) : Paddle.t :=
  Paddle.mk (Paddle.x p) (Paddle.y p) (Paddle.w p) (Paddle.h p) v.

Definition Brick_set_active (a : bool) (b : Brick.t) : Brick.t :=
  Brick.mk (Brick.x b) (Brick.y b) (Brick.w b) (Brick.h b) a.

(** ** Circle-rect collision *)

(** Closest point on rect to ball center, and the offsets [dx], [dy]. *)
Definition closestX (b : Ball.t) (rc : Rect.t) : Q :=
  clamp (Ball.x b) (Rect.x rc) (Rect.x rc + Rect.w rc).
Definition closestY (b : Ball.t) (rc : Rect.t) : Q :=
  clamp (Ball.y b) (Rect.y rc) (Rect.y rc + Rect.h rc).
Definition offX (b : Ball.t) (rc : Rect.t) : Q := Ball.x b - closestX b rc.
Definition offY (b : Ball.t) (rc : Rect.t) : Q := Ball.y b - closestY b rc.
Definition dist2 (b : Ball.t) (rc : Rect.t) : Q :=
  offX b rc * offX b rc + offY b rc * offY b rc.

(** [reflectBallFromRect(rect)]: the returned boolean and the ball after the
    call (the ball is the only thing the function writes). *)
Definition reflectBallFromRect (b : Ball.t) (rc : Rect.t) : bool * Ball.t :=
  let dx := offX b rc in
  let dy := offY b rc in
  if Qgtb (dist2 b rc) (Ball.r b * Ball.r b) then (false, b)
  else
    let absDx := Qabs dx in
    let absDy := Qabs dy in
    if Qeqb absDx 0 && Qeqb absDy 0 then
      let left := Qabs (Ball.x b - Rect.x rc) in
      let right := Qabs (Rect.x rc + Rect.w rc - Ball.x b) in
      let top := Qabs (Ball.y b - Rect.y rc) in
      let bottom := Qabs (Rect.y rc + Rect.h rc - Ball.y b) in
      let minEdge := Qmin4 left right top bottom in
      if Qeqb minEdge left then
        let b1 := Ball_set_x (Rect.x rc - Ball.r b - 0.5) b in
        (true, Ball_set_vx (- Qabs (Ball.vx b1)) b1)
      else if Qeqb minEdge right then
        let b1 := Ball_set_x (Rect.x rc + Rect.w rc + Ball.r b + 0.5) b in
        (true, Ball_set_vx (Qabs (Ball.vx b1)) b1)
      else if Qeqb minEdge top then
        let b1 := Ball_set_y (Rect.y rc - Ball.r b - 0.5) b in
        (true, Ball_set_vy (- Qabs (Ball.vy b1)) b1)
      else
        let b1 := Ball_set_y (Rect.y rc + Rect.h rc + Ball.r b + 0.5) b in
        (true, Ball_set_vy (Qabs (Ball.vy b1)) b1)
    else
      let overlapX := Ball.r b - absDx in
      let overlapY := Ball.r b - absDy in
      if Qltb overlapX overlapY then
        let b1 :=
          if Qgtb dx 0 then Ball_set_x (Ball.x b + (overlapX + 0.5)) b
          else Ball_set_x (Ball.x b - (overlapX + 0.5)) b in
        (true, Ball_set_vx (- Ball.vx b1) b1)
      else
        let b1 :=
          if Qgtb dy 0 then Ball_set_y (Ball.y b + (overlapY + 0.5)) b
          else Ball_set_y (Ball.y b - (overlapY + 0.5)) b in
        (true, Ball_set_vy (- Ball.vy b1) b1).

(** ** Game flow *)

(** Place ball on paddle after losing a life.  [rnd] is the value returned
    by [Math.random()]. *)
Definition resetBallOnPaddle (rnd : Q) (g : Game) : Game :=
  let b := ball g in
  let p := paddle g in
  let b := Ball_set_x (Paddle.x p + Paddle.w p / 2) b in
  let b := Ball_set_y (Paddle.y p - Ball.r b - 1) b in
  let dir : Q := if Qgtb rnd 0.5 then 1 else - (1) in
  let b := Ball_set_vx (BALL_SPEED_X * dir) b in
  let b := Ball_set_vy (- BALL_SPEED_Y) b in
  set_ball b g.

(** [for (let i = start; i < start + count; i++) body(i)] over an
    accumulated state. *)
Fixpoint for_range {A : Type} (start count : nat) (body : nat -> A -> A) (acc : A) : A :=
  match count with
  | O => acc
  | S count' => for_range (S start) count' body (body start acc)
  end.

Definition Qnat (n : nat) : Q := inject_Z (Z.of_nat n).

Definition rows : nat := 5.
Definition cols : nat := 8.
Definition brickW : Q := (GAME_W - 20) / Qnat cols - 4.
Definition brickH : Q := 20.
Definition startY : Q := 80.
Definition startX : Q := 10.

(** The record pushed for ([row], [col]). *)
Definition newBrick (row col : nat) : Brick.t :=
  Brick.mk (startX + Qnat col * (brickW + 4))
           (startY + Qnat row * (brickH + 4))
           brickW brickH true.

(** The two nested loops of [initGame], pushing at the end of the array. *)
Definition brickGrid : list Brick.t :=
  for_range 0 rows
    (fun row acc =>
       for_range 0 cols (fun col acc => acc ++ [newBrick row col]) acc)
    [].

(** Initialize game - create brick grid (does NOT reset score/lives). *)
Definition initGame (rnd : Q) (g : Game) : Game :=
  let g := set_bricks brickGrid g in
  let g := set_paddle (Paddle_set_x (GAME_W / 2 - Paddle.w (paddle g) / 2) (paddle g)) g in
  let g := set_paddle (Paddle_set_targetX (Paddle.x (paddle g)) (paddle g)) g in
  resetBallOnPaddle rnd g.

(** Start a new game (menu/win/lose -> playing). *)
Definition startNewGame (rnd : Q) (g : Game) : Game :=
  let g := set_score 0%Z g in
  let g := set_lives 3%Z g in
  let g := set_state playing g in
  initGame rnd g.

(** The state the script starts with. *)
Definition initial : Game :=
  mkGame menu 0%Z 3%Z
    (Paddle.mk (GAME_W / 2 - 30) (GAME_H - 40) 60 10 (GAME_W / 2 - 30))
    (Ball.mk (GAME_W / 2) (GAME_H - 60) 160 (- (240)) 6)
    []
    (Input.mk false 0 0).

(** ** Input *)

(** What [canvas.getBoundingClientRect()] returns. *)
Module DOMRect.
Record t : Type := mk { left : Q; top : Q; width : Q; height : Q }.
End DOMRect.

(** Convert screen coordinates to game coordinates.  The divisions are
    those of the source; they are meant for a box of nonzero width and
    height, which is what [event_ok] asks of every pointer event. *)
Definition screenToGame (x y : Q) (rect : DOMRect.t) : Q * Q :=
  let scaleX := GAME_W / DOMRect.width rect in
  let scaleY := GAME_H / DOMRect.height rect in
  ((x - DOMRect.left rect) * scaleX, (y - DOMRect.top rect) * scaleY).

Definition is_over (m : Mode) : bool :=
  Mode_eqb m menu || Mode_eqb m win || Mode_eqb m lose.

Definition pointerdown (rnd clientX clientY : Q) (rect : DOMRect.t) (g : Game) : Game :=
  if is_over (state g) then startNewGame rnd g
  else if Mode_eqb (state g) playing then
    let gamePos := screenToGame clientX clientY rect in
    let p := paddle g in
    set_input
      (Input.mk true (fst gamePos)
         (fst gamePos - (Paddle.x p + Paddle.w p / 2))) g
  else g.

Definition pointermove (clientX clientY : Q) (rect : DOMRect.t) (g : Game) : Game :=
  if Mode_eqb (state g) playing && Input.pointerActive (input g) then
    let gamePos := screenToGame clientX clientY rect in
    let i := Input.mk (Input.pointerActive (input g)) (fst gamePos)
               (Input.grabOffset (input g)) in
    let g := set_input i g in
    let p := paddle g in
    let p := Paddle_set_targetX
               (Input.pointerX i - Input.grabOffset i - Paddle.w p / 2) p in
    let p := Paddle_set_targetX
               (clamp (Paddle.targetX p) 0 (GAME_W - Paddle.w p)) p in
    set_paddle p g
  else g.

(** [pointerup] and [pointercancel]. *)
Definition pointerup (g : Game) : Game :=
  set_input (Input.mk false (Input.pointerX (input g))
               (Input.grabOffset (input g))) g.

(** The keys the handler looks at; any other key is [KeyOther]. *)
Inductive Key : Type := KeySpace | KeyEnter | ArrowLeft | ArrowRight | KeyOther.

Definition Key_eqb (a b : Key) : bool :=
  match a, b with
  | KeySpace, KeySpace | KeyEnter, KeyEnter | ArrowLeft, ArrowLeft
  | ArrowRight, ArrowRight | KeyOther, KeyOther => true
  | _, _ => false
  end.

Definition keydown (rnd : Q) (key : Key) (g : Game) : Game :=
  if is_over (state g) then
    if Key_eqb key KeySpace || Key_eqb key KeyEnter then startNewGame rnd g
    else g
  else if Mode_eqb (state g) playing then
    let g :=
      if Key_eqb key ArrowLeft then
        let p := paddle g in
        set_paddle (Paddle_set_targetX
                      (clamp (Paddle.targetX p - 10) 0 (GAME_W - Paddle.w p)) p) g
      else g in
    let g :=
      if Key_eqb key ArrowRight then
        let p := paddle g in
        set_paddle (Paddle_set_targetX
                      (clamp (Paddle.targetX p + 10) 0 (GAME_W - Paddle.w p)) p) g
      else g in
    g
  else g.

(** ** Simulation *)

(** Ball-wall collisions (push ball out and ensure correct velocity
    direction). *)
Definition wallCollisions (b : Ball.t) : Ball.t :=
  let b :=
    if Qleb (Ball.x b - Ball.r b) 0 then
      let b := Ball_set_x (Ball.r b) b in Ball_set_vx (Qabs (Ball.vx b)) b
    else b in
  let b :=
    if Qgeb (Ball.x b + Ball.r b) GAME_W then
      let b := Ball_set_x (GAME_W - Ball.r b) b in Ball_set_vx (- Qabs (Ball.vx b)) b
    else b in
  let b :=
    if Qleb (Ball.y b - Ball.r b) 0 then
      let b := Ball_set_y (Ball.r b) b in Ball_set_vy (Qabs (Ball.vy b)) b
    else b in
  b.

(** Ball-paddle collision (angle-based bounce). *)
Definition paddleCollision (p : Paddle.t) (b : Ball.t) : Ball.t :=
  let (hitp, b) := reflectBallFromRect b (rect_of p) in
  if hitp then
    let b := Ball_set_vy (- Qabs (Ball.vy b)) b in
    let hit := (Ball.x b - Paddle.x p) / Paddle.w p - 0.5 in
    let hitClamped := clamp hit (- 0.5) 0.5 in
    Ball_set_vx (hitClamped * 420) b
  else b.

(** Ball-brick collisions: the [for ... of] loop with its [break], over the
    ball, the score and the array. *)
Fixpoint brickCollisions (b : Ball.t) (sc : Z) (bs : list Brick.t)
  : Ball.t * Z * list Brick.t :=
  match bs with
  | [] => (b, sc, [])
  | brick :: rest =>
      if Brick.active brick then
        let (hitp, b1) := reflectBallFromRect b (rect_of brick) in
        if hitp then (b1, (sc + 10)%Z, Brick_set_active false brick :: rest)
        else
          let '(b2, sc2, rest2) := brickCollisions b1 sc rest in
          (b2, sc2, brick :: rest2)
      else
        let '(b2, sc2, rest2) := brickCollisions b sc rest in
        (b2, sc2, brick :: rest2)
  end.

(** The test of the out-of-bounds check. *)
Definition ballOut (b : Ball.t) : bool := Qgtb (Ball.y b - Ball.r b) GAME_H.

(** Ball out of bounds. *)
Definition outOfBounds (rnd : Q) (g : Game) : Game :=
  if ballOut (ball g) then
    let g := set_lives (lives g - 1)%Z g in
    if (lives g <=? 0)%Z then set_state lose g
    else resetBallOnPaddle rnd g
  else g.

(** [bricks.every(b => !b.active)] *)
Definition allCleared (bs : list Brick.t) : bool :=
  forallb (fun b => negb (Brick.active b)) bs.

(** Check win condition. *)
Definition winCheck (g : Game) : Game :=
  if allCleared (bricks g) then set_state win g else g.

(** The stages of [checkCollisions] on the game state. *)
Definition wallStage (g : Game) : Game :=
  set_ball (wallCollisions (ball g)) g.

Definition paddleStage (g : Game) : Game :=
  set_ball (paddleCollision (paddle g) (ball g)) g.

Definition brickStage (g : Game) : Game :=
  let '(b, sc, bs) := brickCollisions (ball g) (score g) (bricks g) in
  set_bricks bs (set_score sc (set_ball b g)).

(** The state when the out-of-bounds check is reached: walls, paddle and
    bricks have been handled. *)
Definition afterBricks (g : Game) : Game :=
  brickStage (paddleStage (wallStage g)).

(** Collision detection. *)
Definition checkCollisions (rnd : Q) (g : Game) : Game :=
  winCheck (outOfBounds rnd (afterBricks g)).

(** The first two steps of [update]: smooth paddle movement toward target,
    then move ball using dt. *)
Definition integrate (dt : Q) (g : Game) : Game :=
  let p := paddle g in
  let p := Paddle_set_x
             (Paddle.x p + (Paddle.targetX p - Paddle.x p)
                           * Qmin 1 (dt * PADDLE_SMOOTHING)) p in
  let g := set_paddle p g in
  let b := ball g in
  let b := Ball_set_x (Ball.x b + Ball.vx b * dt) b in
  let b := Ball_set_y (Ball.y b + Ball.vy b * dt) b in
  set_ball b g.

(** Update game logic (dt in seconds). *)
Definition update (dt rnd : Q) (g : Game) : Game :=
  if negb (Mode_eqb (state g) playing) then g
  else checkCollisions rnd (integrate dt g).

(** ** Events and reachable states *)

Inductive Event : Type :=
  | EvFrame (dt : Q)
  | EvPointerDown (clientX clientY : Q) (rect : DOMRect.t)
  | EvPointerMove (clientX clientY : Q) (rect : DOMRect.t)
  | EvPointerUp
  | EvPointerCancel
  | EvKeyDown (key : Key).

(** One callback of the page; [rnd] is what [Math.random()] returns if the
    callback asks for it. *)
Definition handle (rnd : Q) (e : Event) (g : Game) : Game :=
  match e with
  | EvFrame dt => update dt rnd g
  | EvPointerDown cx cy rect => pointerdown rnd cx cy rect g
  | EvPointerMove cx cy rect => pointermove cx cy rect g
  | EvPointerUp | EvPointerCancel => pointerup g
  | EvKeyDown key => keydown rnd key g
  end.

(** The time step [gameLoop(ts)] computes from the previous timestamp
    ([lastTime], 0 while no frame has been timed: [!lastTime] holds) and
    the current one, in seconds and capped at [MAX_DT]. *)
Definition gameLoop_dt (lastTime ts : Q) : Q :=
  let lastTime := if Qeqb lastTime 0 then ts else lastTime in
  let dt := (ts - lastTime) / 1000 in
  if Qgtb dt MAX_DT then MAX_DT else dt.

(** The events the page can receive.  A frame carries what [gameLoop]
    hands to [update]: the difference of two successive timestamps of a
    monotone clock, capped at [MAX_DT].  A pointer press or move is
    delivered over the canvas, whose box then has a positive width and
    height: with a box of zero size [screenToGame] would divide by zero,
    which the program answers with [Infinity] and [NaN] and the rationals
    do not follow. *)
Definition event_ok (e : Event) : Prop :=
  match e with
  | EvFrame dt => 0 <= dt /\ dt <= MAX_DT
  | EvPointerDown _ _ rect | EvPointerMove _ _ rect =>
      0 < DOMRect.width rect /\ 0 < DOMRect.height rect
  | _ => True
  end.

Inductive reachable : Game -> Prop :=
  | reach_initial : reachable initial
  | reach_handle (g : Game) (rnd : Q) (e : Event) :
      reachable g -> event_ok e -> reachable (handle rnd e g).

(** A run of ticks, each with its [dt] and its random number. *)
Fixpoint ticks (l : list (Q * Q)) (g : Game) : Game :=
  match l with
  | [] => g
  | (dt, rnd) :: l' => ticks l' (update dt rnd g)
  end.

(** ** Vocabulary of the statements *)

(** The ball overlaps the rectangle: the squared distance from its center
    to the closest point of the rectangle is at most the squared radius. *)
Definition overlaps (b : Ball.t) (rc : Rect.t) : Prop :=
  dist2 b rc <= Ball.r b * Ball.r b.

(** The ball does not overlap the rectangle: the squared distance exceeds
    the squared radius. *)
Definition separated (b : Ball.t) (rc : Rect.t) : Prop :=
  Ball.r b * Ball.r b < dist2 b rc.

(** Exactly one velocity component has flipped sign between [b] and [b']. *)
Definition flipsExactlyOne (b b' : Ball.t) : Prop :=
  (Ball.vx b' == - Ball.vx b /\ Ball.vy b' == Ball.vy b)
  \/ (Ball.vx b' == Ball.vx b /\ Ball.vy b' == - Ball.vy b).

(** A ball has a non-negative radius, a rectangle has non-negative
    extent. *)
Definition wf_ball (b : Ball.t) : Prop := 0 <= Ball.r b.
Definition wf_rect (rc : Rect.t) : Prop := 0 <= Rect.w rc /\ 0 <= Rect.h rc.

(** The ball center lies on the rectangle: both offsets are zero. *)
Definition centered (b : Ball.t) (rc : Rect.t) : Prop :=
  offX b rc == 0 /\ offY b rc == 0.

(** Number of bricks still active. *)
Definition activeCount (bs : list Brick.t) : nat :=
  length (filter Brick.active bs).

(** The four edges of a rectangle, in the order the source tests them. *)
Inductive Edge : Type := EdgeLeft | EdgeRight | EdgeTop | EdgeBottom.

(** Distance from the ball center to an edge. *)
Definition edgeDist (b : Ball.t) (rc : Rect.t) (e : Edge) : Q :=
  match e with
  | EdgeLeft => Qabs (Ball.x b - Rect.x rc)
  | EdgeRight => Qabs (Rect.x rc + Rect.w rc - Ball.x b)
  | EdgeTop => Qabs (Ball.y b - Rect.y rc)
  | EdgeBottom => Qabs (Rect.y rc + Rect.h rc - Ball.y b)
  end.

(** The nearest edge as the specification words it: the edge with the
    smallest distance, and among equal distances the first one in the order
    left, right, top, bottom. *)
Definition nearestEdge (b : Ball.t) (rc : Rect.t) : Edge :=
  fold_left
    (fun best e => if Qltb (edgeDist b rc e) (edgeDist b rc best) then e else best)
    [EdgeRight; EdgeTop; EdgeBottom] EdgeLeft.

(** Where the ball is put when it is pushed out through an edge, and what
    the velocity along the push axis becomes when it is forced away from
    the rectangle. *)
Definition pushedOut (b : Ball.t) (rc : Rect.t) (e : Edge) (b' : Ball.t) : Prop :=
  match e with
  | EdgeLeft =>
      Ball.x b' == Rect.x rc - Ball.r b - 0.5 /\ Ball.vx b' == - Qabs (Ball.vx b)
      /\ Ball.y b' = Ball.y b /\ Ball.vy b' = Ball.vy b
  | EdgeRight =>
      Ball.x b' == Rect.x rc + Rect.w rc + Ball.r b + 0.5 /\ Ball.vx b' == Qabs (Ball.vx b)
      /\ Ball.y b' = Ball.y b /\ Ball.vy b' = Ball.vy b
  | EdgeTop =>
      Ball.y b' == Rect.y rc - Ball.r b - 0.5 /\ Ball.vy b' == - Qabs (Ball.vy b)
      /\ Ball.x b' = Ball.x b /\ Ball.vx b' = Ball.vx b
  | EdgeBottom =>
      Ball.y b' == Rect.y rc + Rect.h rc + Ball.r b + 0.5 /\ Ball.vy b' == Qabs (Ball.vy b)
      /\ Ball.x b' = Ball.x b /\ Ball.vx b' = Ball.vx b
  end.

(** The overlaps the normal case compares. *)
Definition overlapX (b : Ball.t) (rc : Rect.t) : Q := Ball.r b - Qabs (offX b rc).
Definition overlapY (b : Ball.t) (rc : Rect.t) : Q := Ball.r b - Qabs (offY b rc).

(** The normal case resolved through edge [e]: the ball center is beyond
    that edge, it is moved further away by the overlap of that axis plus
    0.5, the velocity component of that axis is negated, and the other
    axis is untouched. *)
Definition bounced (b : Ball.t) (rc : Rect.t) (e : Edge) (b' : Ball.t) : Prop :=
  match e with
  | EdgeLeft =>
      Ball.x b < Rect.x rc
      /\ Ball.x b' == Ball.x b - (overlapX b rc + 0.5) /\ Ball.vx b' == - Ball.vx b
      /\ Ball.y b' = Ball.y b /\ Ball.vy b' = Ball.vy b
  | EdgeRight =>
      Rect.x rc + Rect.w rc < Ball.x b
      /\ Ball.x b' == Ball.x b + (overlapX b rc + 0.5) /\ Ball.vx b' == - Ball.vx b
      /\ Ball.y b' = Ball.y b /\ Ball.vy b' = Ball.vy b
  | EdgeTop =>
      Ball.y b < Rect.y rc
      /\ Ball.y b' == Ball.y b - (overlapY b rc + 0.5) /\ Ball.vy b' == - Ball.vy b
      /\ Ball.x b' = Ball.x b /\ Ball.vx b' = Ball.vx b
  | EdgeBottom =>
      Rect.y rc + Rect.h rc < Ball.y b
      /\ Ball.y b' == Ball.y b + (overlapY b rc + 0.5) /\ Ball.vy b' == - Ball.vy b
      /\ Ball.x b' = Ball.x b /\ Ball.vx b' = Ball.vx b
  end.

(** [nearestEdge] as a decision tree over the four distances. *)
Definition firstMin (l r t bo : Q) : Edge :=
  if Qltb r l then
    if Qltb t r then (if Qltb bo t then EdgeBottom else EdgeTop)
    else (if Qltb bo r then EdgeBottom else EdgeRight)
  else
    if Qltb t l then (if Qltb bo t then EdgeBottom else EdgeTop)
    else (if Qltb bo l then EdgeBottom else EdgeLeft).

(** A brick of the list is hit by the ball: it is active and the collision
    function reports a hit. *)
Definition brickHit (b : Ball.t) (k : Brick.t) : bool :=
  Brick.active k && fst (reflectBallFromRect b (rect_of k)).

(** The bricks lie where [initGame] put them: only [active] is ever
    written. *)
Definition gridShaped (bs : list Brick.t) : Prop :=
  map rect_of bs = map rect_of brickGrid.

(** What holds in every state the page can be in, whatever time steps the
    ticks are given. *)
Record Inv (g : Game) : Prop := mkInv {
  inv_paddle_w : Paddle.w (paddle g) = 60;
  inv_paddle_h : Paddle.h (paddle g) = 10;
  inv_paddle_y : Paddle.y (paddle g) = GAME_H - 40;
  inv_ball_r : Ball.r (ball g) = 6;
  inv_grid : state g <> menu -> gridShaped (bricks g);
  inv_lives : (0 <= lives g)%Z;
  inv_score : (0 <= score g)%Z;
  inv_not_paused : state g <> paused;
  inv_playing : state g = playing ->
                (1 <= lives g)%Z /\ allCleared (bricks g) = false;
  inv_win : state g = win -> allCleared (bricks g) = true;
  inv_lose : state g = lose -> lives g = 0%Z /\ allCleared (bricks g) = false;
  inv_zero : lives g = 0%Z -> state g = lose \/ state g = win
}.

(** The paddle and its target are inside the playfield. *)
Definition paddleInside (g : Game) : Prop :=
  (0 <= Paddle.x (paddle g) <= GAME_W - Paddle.w (paddle g))
  /\ (0 <= Paddle.targetX (paddle g) <= GAME_W - Paddle.w (paddle g)).

(** The outcome of the brick loop: either no brick is hit and nothing
    changes, or the first brick hit, in list order, is the one
    deactivated. *)
Inductive BrickOutcome (b : Ball.t) (sc : Z) (bs : list Brick.t)
  : Ball.t * Z * list Brick.t -> Prop :=
  | NoBrickHit :
      Forall (fun k => brickHit b k = false) bs ->
      BrickOutcome b sc bs (b, sc, bs)
  | FirstBrickHit (pre post : list Brick.t) (k : Brick.t) :
      bs = pre ++ k :: post ->
      Forall (fun k' => brickHit b k' = false) pre ->
      brickHit b k = true ->
      BrickOutcome b sc bs
        (snd (reflectBallFromRect b (rect_of k)), (sc + 10)%Z,
         pre ++ Brick_set_active false k :: post).

(** The ball [b'] is the ball [b] served from the paddle [p]: at rest on the
    paddle's horizontal center, just above it, going up at the serve speed,
    to the right when [Math.random()] returned more than 0.5 and to the
    left otherwise. *)
Definition served (rnd : Q) (p : Paddle.t) (b b' : Ball.t) : Prop :=
  Ball.x b' == Paddle.x p + Paddle.w p / 2
  /\ Ball.y b' == Paddle.y p - Ball.r b - 1
  /\ Ball.vy b' == - (260)
  /\ Ball.vx b' == (if Qgtb rnd 0.5 then 180 else - (180))
  /\ Ball.r b' = Ball.r b.

(** ** The frame callback *)

(** [gameLoop(ts)] on the pair of [lastTime] and the game state: it times
    the frame, remembers the timestamp and updates the game ([draw] and the
    request for the next frame write nothing). *)
Definition gameLoop (ts rnd : Q) (st : Q * Game) : Q * Game :=
  let (lastTime, g) := st in
  (ts, update (gameLoop_dt lastTime ts) rnd g).

(** ** Canvas size and scaling *)

(** What [resizeCanvas] writes: the CSS size of the canvas, its internal
    resolution and the scale of the drawing context. *)
Module Layout.
Record t : Type := mk {
  styleWidth : Q; styleHeight : Q; width : Q; height : Q; scale : Q
}.
End Layout.

(** Initialize canvas size and scaling, from [window.innerWidth] and
    [window.devicePixelRatio] (a ratio of 0 stands for a missing one:
    [window.devicePixelRatio || 1]). *)
Definition resizeCanvas (innerWidth devicePixelRatio : Q) : Layout.t :=
  let dpr := if Qeqb devicePixelRatio 0 then 1 else devicePixelRatio in
  let maxDisplayWidth := Qmin innerWidth GAME_W in
  let displayHeight := (maxDisplayWidth / GAME_W) * GAME_H in
  Layout.mk maxDisplayWidth displayHeight (GAME_W * dpr) (GAME_H * dpr) dpr.

(** ** Drawing *)

(** A template literal: literal text and interpolated numbers. *)
Inductive TextPart : Type :=
  | Lit (s : string)
  | Num (n : Z).

(** The calls [draw] makes on the context, through [drawRect],
    [drawCircle] and [drawText], in game coordinates. *)
Inductive DrawCmd : Type :=
  | FillRect (x y w h : Q) (color : string)
  | FillCircle (x y r : Q) (color : string)
  | FillText (text : list TextPart) (x y size : Q) (color align : string).

Definition drawRect (x y w h : Q) (color : string) : DrawCmd :=
  FillRect x y w h color.
Definition drawCircle (x y r : Q) (color : string) : DrawCmd :=
  FillCircle x y r color.
(** [align] defaults to ['center']. *)
Definition drawText (text : list TextPart) (x y size : Q) (color : string)
  (align : option string) : DrawCmd :=
  FillText text x y size color
    (match align with Some a => a | None => "center"%string end).

(** The loop over the bricks in [draw]. *)
Fixpoint drawBricks (bs : list Brick.t) : list DrawCmd :=
  match bs with
  | [] => []
  | brick :: rest =>
      (if Brick.active brick then
         [drawRect (Brick.x brick) (Brick.y brick) (Brick.w brick) (Brick.h brick)
            "#3b82f6"]
       else [])
      ++ drawBricks rest
  end.

(** [draw()]: the commands issued for a game state, in order. *)
Definition draw (g : Game) : list DrawCmd :=
  let clear := FillRect 0 0 GAME_W GAME_H "#0f0f1e" in
  match state g with
  | menu =>
      [clear;
       drawText [Lit "BRICK BREAKER"] (GAME_W / 2) (GAME_H / 2 - 40) 32 "#fff" None;
       drawText [Lit "Tap to Start"] (GAME_W / 2) (GAME_H / 2 + 20) 24 "#aaa" None]
  | win =>
      [clear;
       drawText [Lit "YOU WIN!"] (GAME_W / 2) (GAME_H / 2 - 40) 36 "#4ade80" None;
       drawText [Lit "Score: "; Num (score g)] (GAME_W / 2) (GAME_H / 2 + 20) 24
         "#fff" None;
       drawText [Lit "Tap to Play Again"] (GAME_W / 2) (GAME_H / 2 + 60) 20
         "#aaa" None]
  | lose =>
      [clear;
       drawText [Lit "GAME OVER"] (GAME_W / 2) (GAME_H / 2 - 40) 36 "#f87171" None;
       drawText [Lit "Score: "; Num (score g)] (GAME_W / 2) (GAME_H / 2 + 20) 24
         "#fff" None;
       drawText [Lit "Tap to Restart"] (GAME_W / 2) (GAME_H / 2 + 60) 20
         "#aaa" None]
  | playing | paused =>
      [clear;
       drawText [Lit "Score: "; Num (score g)] 10 20 20 "#fff" (Some "left"%string);
       drawText [Lit "Lives: "; Num (lives g)] (GAME_W - 10) 20 20 "#fff"
         (Some "right"%string)]
      ++ drawBricks (bricks g)
      ++ [drawRect (Paddle.x (paddle g)) (Paddle.y (paddle g))
            (Paddle.w (paddle g)) (Paddle.h (paddle g)) "#fff";
          drawCircle (Ball.x (ball g)) (Ball.y (ball g)) (Ball.r (ball g)) "#fff"]
  end.

(** ** Vocabulary of further statements *)

(** Between two brick arrays: the same rectangles in the same order, and no
    brick active in the second that was not active in the first. *)
Definition fades (bs bs' : list Brick.t) : Prop :=
  Forall2
    (fun k k' =>
       rect_of k' = rect_of k
       /\ (Brick.active k' = true -> Brick.active k = true))
    bs bs'.

(** Two rectangles are at least [gap] apart along one of the axes. *)
Definition apart (gap : Q) (r1 r2 : Rect.t) : Prop :=
  Rect.x r1 + Rect.w r1 + gap <= Rect.x r2
  \/ Rect.x r2 + Rect.w r2 + gap <= Rect.x r1
  \/ Rect.y r1 + Rect.h r1 + gap <= Rect.y r2
  \/ Rect.y r2 + Rect.h r2 + gap <= Rect.y r1.

(** The events that come from the pointer and the keyboard. *)
Definition is_input (e : Event) : bool :=
  match e with
  | EvFrame _ => false
  | _ => true
  end.

(** The events that start a game when none is being played. *)
Definition is_start (e : Event) : bool :=
  match e with
  | EvPointerDown _ _ _ => true
  | EvKeyDown key => Key_eqb key KeySpace || Key_eqb key KeyEnter
  | _ => false
  end.

(** The score counts the destroyed bricks, and there are at most three
    lives. *)
Definition accounted (g : Game) : Prop :=
  (state g <> menu ->
   (score g + 10 * Z.of_nat (activeCount (bricks g)) = 400)%Z)
  /\ (lives g <= 3)%Z.

(** ** Tests of the source as propositions *)

Lemma Qltb_true (a b : Q) : Qltb a b = true <-> a < b.
Proof.
  unfold Qltb. rewrite negb_true_iff. split; intros H.
  - destruct (Qlt_le_dec a b) as [L | L]; [exact L |].
    apply Qle_bool_iff in L. congruence.
  - destruct (Qle_bool b a) eqn:E; [| reflexivity].
    apply Qle_bool_iff in E. lra.
Qed.

Lemma Qltb_false (a b : Q) : Qltb a b = false <-> b <= a.
Proof.
  unfold Qltb. rewrite negb_false_iff. apply Qle_bool_iff.
Qed.

Lemma Qleb_true (a b : Q) : Qleb a b = true <-> a <= b.
Proof. apply Qle_bool_iff. Qed.

Lemma Qleb_false (a b : Q) : Qleb a b = false <-> b < a.
Proof.
  unfold Qleb. split; intros H.
  - destruct (Qlt_le_dec b a) as [L | L]; [exact L |].
    apply Qle_bool_iff in L. congruence.
  - destruct (Qle_bool a b) eqn:E; [| reflexivity].
    apply Qle_bool_iff in E. lra.
Qed.

Lemma Qeqb_true (a b : Q) : Qeqb a b = true <-> a == b.
Proof. apply Qeq_bool_iff. Qed.

Lemma Qeqb_false (a b : Q) : Qeqb a b = false <-> ~ a == b.
Proof.
  unfold Qeqb. split; intros H.
  - intros E. apply Qeq_bool_iff in E. congruence.
  - destruct (Qeq_bool a b) eqn:E; [| reflexivity].
    apply Qeq_bool_iff in E. contradiction.
Qed.

(** Turn every decided test among the hypotheses into its proposition. *)
Ltac tests_to_props :=
  repeat match goal with
  | H : Qltb _ _ = true |- _ => apply Qltb_true in H
  | H : Qltb _ _ = false |- _ => apply Qltb_false in H
  | H : Qgtb _ _ = true |- _ => unfold Qgtb in H; apply Qltb_true in H
  | H : Qgtb _ _ = false |- _ => unfold Qgtb in H; apply Qltb_false in H
  | H : Qleb _ _ = true |- _ => apply Qleb_true in H
  | H : Qleb _ _ = false |- _ => apply Qleb_false in H
  | H : Qgeb _ _ = true |- _ => unfold Qgeb in H; apply Qle_bool_iff in H
  | H : Qgeb _ _ = false |- _ => unfold Qgeb in H; apply Qleb_false in H
  | H : Qeqb _ _ = true |- _ => apply Qeqb_true in H
  | H : Qeqb _ _ = false |- _ => apply Qeqb_false in H
  | H : _ && _ = true |- _ => apply andb_true_iff in H; destruct H
  end.

(** Name the value of [Qabs], [Qmin] or [Qmax] at given arguments and keep
    only its defining inequalities. *)
Ltac abs_cases x :=
  let a := fresh "a" in
  let Ha := fresh "Ha" in
  remember (Qabs x) as a eqn:Ha;
  let H := fresh "Habs" in
  assert (H : (0 <= x /\ a == x) \/ (x <= 0 /\ a == - x))
    by (subst a; apply Qabs_case; intros; [left | right]; split; auto; reflexivity);
  clear Ha; destruct H as [[? ?] | [? ?]].

Ltac min_cases x y :=
  let a := fresh "m" in
  let Ha := fresh "Hm" in
  remember (Qmin x y) as a eqn:Ha;
  let H := fresh "Hmin" in
  pose proof (Q.min_spec x y) as H; rewrite <- Ha in H;
  clear Ha; destruct H as [[? ?] | [? ?]].

Ltac max_cases x y :=
  let a := fresh "m" in
  let Ha := fresh "Hm" in
  remember (Qmax x y) as a eqn:Ha;
  let H := fresh "Hmax" in
  pose proof (Q.max_spec x y) as H; rewrite <- Ha in H;
  clear Ha; destruct H as [[? ?] | [? ?]].

(** ** The closest point *)

Section Clamp.
Variables v lo hi : Q.

Lemma clamp_below : v <= lo -> lo <= hi -> clamp v lo hi == lo.
Proof.
  intros H1 H2. unfold clamp.
  min_cases hi v; max_cases lo m; lra.
Qed.

Lemma clamp_above : hi <= v -> lo <= hi -> clamp v lo hi == hi.
Proof.
  intros H1 H2. unfold clamp.
  min_cases hi v; max_cases lo m; lra.
Qed.

Lemma clamp_inside : lo <= v -> v <= hi -> clamp v lo hi == v.
Proof.
  intros H1 H2. unfold clamp.
  min_cases hi v; max_cases lo m; lra.
Qed.

Lemma clamp_range : lo <= hi -> lo <= clamp v lo hi /\ clamp v lo hi <= hi.
Proof.
  intros H. unfold clamp.
  min_cases hi v; max_cases lo m; lra.
Qed.

(** Without any assumption on the bounds. *)
Lemma clamp_lt_self : clamp v lo hi < v -> hi < v /\ lo < v.
Proof.
  unfold clamp. min_cases hi v; max_cases lo m; lra.
Qed.

Lemma clamp_gt_self : v < clamp v lo hi -> v < lo.
Proof.
  unfold clamp. min_cases hi v; max_cases lo m; lra.
Qed.
End Clamp.

(** With a clock that does not run backwards, the time step is in
    [0, MAX_DT]. *)
Lemma gameLoop_dt_ok (lastTime ts : Q) :
  lastTime <= ts -> event_ok (EvFrame (gameLoop_dt lastTime ts)).
Proof.
  intros H. unfold gameLoop_dt. cbn [event_ok].
  assert (Hm : 0 <= MAX_DT) by (vm_compute; discriminate).
  destruct (Qeqb lastTime 0);
    match goal with
    | |- context [Qgtb ?d MAX_DT] => destruct (Qgtb d MAX_DT) eqn:E
    end;
    unfold Qgtb in E; try apply Qltb_false in E;
    unfold Qdiv in *; change (/ 1000) with (1 # 1000) in *;
    split; lra.
Qed.

(** ** [reflectBallFromRect] *)

Lemma centered_test (b : Ball.t) (rc : Rect.t) :
  Qeqb (Qabs (offX b rc)) 0 && Qeqb (Qabs (offY b rc)) 0 = true <-> centered b rc.
Proof.
  unfold centered. rewrite andb_true_iff, !Qeqb_true.
  abs_cases (offX b rc); abs_cases (offY b rc); split; intros [? ?]; split; lra.
Qed.

Lemma reflect_r (b : Ball.t) (rc : Rect.t) :
  Ball.r (snd (reflectBallFromRect b rc)) = Ball.r b.
Proof.
  unfold reflectBallFromRect.
  repeat match goal with
  | |- context [if ?c then _ else _] => destruct c
  end; reflexivity.
Qed.

Lemma reflect_returns (b : Ball.t) (rc : Rect.t) :
  fst (reflectBallFromRect b rc) = negb (Qgtb (dist2 b rc) (Ball.r b * Ball.r b)).
Proof.
  unfold reflectBallFromRect.
  repeat match goal with
  | |- context [if ?c then _ else _] => destruct c
  end; reflexivity.
Qed.

Lemma reflect_hit (b : Ball.t) (rc : Rect.t) :
  overlaps b rc -> fst (reflectBallFromRect b rc) = true.
Proof.
  intros H. rewrite reflect_returns.
  destruct (Qgtb _ _) eqn:E; [| reflexivity].
  tests_to_props. unfold overlaps in H. lra.
Qed.

Lemma reflect_hit_inv (b : Ball.t) (rc : Rect.t) :
  fst (reflectBallFromRect b rc) = true -> overlaps b rc.
Proof.
  rewrite reflect_returns. destruct (Qgtb _ _) eqn:E; [discriminate |].
  intros _. tests_to_props. exact E.
Qed.

Lemma nearestEdge_firstMin (b : Ball.t) (rc : Rect.t) :
  nearestEdge b rc =
  firstMin (edgeDist b rc EdgeLeft) (edgeDist b rc EdgeRight)
           (edgeDist b rc EdgeTop) (edgeDist b rc EdgeBottom).
Proof.
  unfold nearestEdge, firstMin. cbn [fold_left].
  destruct (Qltb (edgeDist b rc EdgeRight) (edgeDist b rc EdgeLeft));
    match goal with
    | |- context [Qltb (edgeDist b rc EdgeTop) ?d] =>
        destruct (Qltb (edgeDist b rc EdgeTop) d)
    end;
    match goal with
    | |- context [Qltb (edgeDist b rc EdgeBottom) ?d] =>
        destruct (Qltb (edgeDist b rc EdgeBottom) d)
    end; reflexivity.
Qed.

(** The degenerate case: the edge the source picks is the nearest edge. *)
Lemma reflect_centered (b : Ball.t) (rc : Rect.t) :
  overlaps b rc -> centered b rc ->
  pushedOut b rc (nearestEdge b rc) (snd (reflectBallFromRect b rc)).
Proof.
  intros Ho Hc. unfold reflectBallFromRect.
  destruct (Qgtb _ _) eqn:E.
  { tests_to_props. unfold overlaps in Ho. lra. }
  apply centered_test in Hc. rewrite Hc. clear E Hc Ho.
  rewrite nearestEdge_firstMin. unfold firstMin, Qmin4. cbn [edgeDist].
  set (l := Qabs (Ball.x b - Rect.x rc)).
  set (r := Qabs (Rect.x rc + Rect.w rc - Ball.x b)).
  set (t := Qabs (Ball.y b - Rect.y rc)).
  set (bo := Qabs (Rect.y rc + Rect.h rc - Ball.y b)).
  clearbody l r t bo.
  min_cases l r; min_cases m t; min_cases m0 bo;
  (destruct (Qeqb m1 l) eqn:E1;
   [| destruct (Qeqb m1 r) eqn:E2; [| destruct (Qeqb m1 t) eqn:E3]]);
  repeat match goal with
  | |- context [if Qltb ?x ?y then _ else _] =>
      let T := fresh "T" in destruct (Qltb x y) eqn:T
  end;
  tests_to_props; try (exfalso; lra);
  cbn; repeat split; reflexivity.
Qed.

(** The normal case: the axis of strictly smaller overlap, Y on a tie. *)
Lemma reflect_normal_X (b : Ball.t) (rc : Rect.t) :
  overlaps b rc -> ~ centered b rc -> overlapX b rc < overlapY b rc ->
  bounced b rc EdgeLeft (snd (reflectBallFromRect b rc))
  \/ bounced b rc EdgeRight (snd (reflectBallFromRect b rc)).
Proof.
  intros Ho Hc Hlt. unfold reflectBallFromRect.
  destruct (Qgtb (dist2 b rc) _) eqn:E.
  { tests_to_props. unfold overlaps in Ho. lra. }
  destruct (_ && _) eqn:C.
  { apply centered_test in C. contradiction. }
  fold (overlapX b rc) (overlapY b rc).
  apply Qltb_true in Hlt. rewrite Hlt. apply Qltb_true in Hlt.
  assert (Hne : ~ offX b rc == 0).
  { unfold overlapX, overlapY in Hlt.
    abs_cases (offX b rc); abs_cases (offY b rc); lra. }
  destruct (Qgtb (offX b rc) 0) eqn:D; tests_to_props; [right | left]; cbn.
  - split; [| repeat split; reflexivity].
    unfold offX, closestX in D.
    pose proof (clamp_lt_self (Ball.x b) (Rect.x rc) (Rect.x rc + Rect.w rc)).
    lra.
  - split; [| repeat split; reflexivity].
    unfold offX, closestX in D, Hne.
    pose proof (clamp_gt_self (Ball.x b) (Rect.x rc) (Rect.x rc + Rect.w rc)).
    lra.
Qed.

Lemma reflect_normal_Y (b : Ball.t) (rc : Rect.t) :
  overlaps b rc -> ~ centered b rc -> overlapY b rc <= overlapX b rc ->
  bounced b rc EdgeTop (snd (reflectBallFromRect b rc))
  \/ bounced b rc EdgeBottom (snd (reflectBallFromRect b rc)).
Proof.
  intros Ho Hc Hle. unfold reflectBallFromRect.
  destruct (Qgtb (dist2 b rc) _) eqn:E.
  { tests_to_props. unfold overlaps in Ho. lra. }
  destruct (_ && _) eqn:C.
  { apply centered_test in C. contradiction. }
  fold (overlapX b rc) (overlapY b rc).
  apply Qltb_false in Hle. rewrite Hle. apply Qltb_false in Hle.
  assert (Hne : ~ offY b rc == 0).
  { unfold overlapX, overlapY in Hle. unfold centered in Hc.
    abs_cases (offX b rc); abs_cases (offY b rc); intros Z; apply Hc; split; lra. }
  destruct (Qgtb (offY b rc) 0) eqn:D; tests_to_props; [right | left]; cbn.
  - split; [| repeat split; reflexivity].
    unfold offY, closestY in D.
    pose proof (clamp_lt_self (Ball.y b) (Rect.y rc) (Rect.y rc + Rect.h rc)).
    lra.
  - split; [| repeat split; reflexivity].
    unfold offY, closestY in D, Hne.
    pose proof (clamp_gt_self (Ball.y b) (Rect.y rc) (Rect.y rc + Rect.h rc)).
    lra.
Qed.

(** ** Being clear of a rectangle *)

Lemma sq_nonneg (a : Q) : 0 <= a * a.
Proof. nra. Qed.

Section Separated.
Variables (b : Ball.t) (rc : Rect.t).
Hypothesis Hr : 0 <= Ball.r b.
Hypothesis Hrc : wf_rect rc.

Lemma separated_left : Ball.x b < Rect.x rc - Ball.r b -> separated b rc.
Proof.
  intros H. destruct Hrc as [Hw Hh]. unfold separated, dist2.
  pose proof (sq_nonneg (offY b rc)).
  assert (E : offX b rc == Ball.x b - Rect.x rc).
  { unfold offX, closestX.
    rewrite (clamp_below (Ball.x b) (Rect.x rc) (Rect.x rc + Rect.w rc)) by lra.
    reflexivity. }
  rewrite E. nra.
Qed.

Lemma separated_right :
  Rect.x rc + Rect.w rc + Ball.r b < Ball.x b -> separated b rc.
Proof.
  intros H. destruct Hrc as [Hw Hh]. unfold separated, dist2.
  pose proof (sq_nonneg (offY b rc)).
  assert (E : offX b rc == Ball.x b - (Rect.x rc + Rect.w rc)).
  { unfold offX, closestX.
    rewrite (clamp_above (Ball.x b) (Rect.x rc) (Rect.x rc + Rect.w rc)) by lra.
    reflexivity. }
  rewrite E. nra.
Qed.

Lemma separated_top : Ball.y b < Rect.y rc - Ball.r b -> separated b rc.
Proof.
  intros H. destruct Hrc as [Hw Hh]. unfold separated, dist2.
  pose proof (sq_nonneg (offX b rc)).
  assert (E : offY b rc == Ball.y b - Rect.y rc).
  { unfold offY, closestY.
    rewrite (clamp_below (Ball.y b) (Rect.y rc) (Rect.y rc + Rect.h rc)) by lra.
    reflexivity. }
  rewrite E. nra.
Qed.

Lemma separated_bottom :
  Rect.y rc + Rect.h rc + Ball.r b < Ball.y b -> separated b rc.
Proof.
  intros H. destruct Hrc as [Hw Hh]. unfold separated, dist2.
  pose proof (sq_nonneg (offX b rc)).
  assert (E : offY b rc == Ball.y b - (Rect.y rc + Rect.h rc)).
  { unfold offY, closestY.
    rewrite (clamp_above (Ball.y b) (Rect.y rc) (Rect.y rc + Rect.h rc)) by lra.
    reflexivity. }
  rewrite E. nra.
Qed.
End Separated.

(** The offsets when the ball center is beyond an edge. *)
Lemma offX_left (b : Ball.t) (rc : Rect.t) :
  Ball.x b < Rect.x rc -> offX b rc == Ball.x b - Rect.x rc.
Proof.
  intros H. unfold offX, closestX, clamp.
  min_cases (Rect.x rc + Rect.w rc) (Ball.x b); max_cases (Rect.x rc) m; lra.
Qed.

Lemma offY_top (b : Ball.t) (rc : Rect.t) :
  Ball.y b < Rect.y rc -> offY b rc == Ball.y b - Rect.y rc.
Proof.
  intros H. unfold offY, closestY, clamp.
  min_cases (Rect.y rc + Rect.h rc) (Ball.y b); max_cases (Rect.y rc) m; lra.
Qed.

Lemma offX_right (b : Ball.t) (rc : Rect.t) :
  0 <= Rect.w rc -> Rect.x rc + Rect.w rc < Ball.x b ->
  offX b rc == Ball.x b - (Rect.x rc + Rect.w rc).
Proof.
  intros Hw H. unfold offX, closestX, clamp.
  min_cases (Rect.x rc + Rect.w rc) (Ball.x b); max_cases (Rect.x rc) m; lra.
Qed.

Lemma offY_bottom (b : Ball.t) (rc : Rect.t) :
  0 <= Rect.h rc -> Rect.y rc + Rect.h rc < Ball.y b ->
  offY b rc == Ball.y b - (Rect.y rc + Rect.h rc).
Proof.
  intros Hh H. unfold offY, closestY, clamp.
  min_cases (Rect.y rc + Rect.h rc) (Ball.y b); max_cases (Rect.y rc) m; lra.
Qed.

(** Where a resolved ball ends up: beyond one edge by the radius and 0.5. *)
Lemma bounced_placed (b : Ball.t) (rc : Rect.t) (e : Edge) (b' : Ball.t) :
  wf_rect rc -> bounced b rc e b' ->
  match e with
  | EdgeLeft => Ball.x b' == Rect.x rc - Ball.r b - 0.5
  | EdgeRight => Ball.x b' == Rect.x rc + Rect.w rc + Ball.r b + 0.5
  | EdgeTop => Ball.y b' == Rect.y rc - Ball.r b - 0.5
  | EdgeBottom => Ball.y b' == Rect.y rc + Rect.h rc + Ball.r b + 0.5
  end.
Proof.
  intros [Hw Hh] H. destruct e; cbn in H; destruct H as (Hb & Hx & _);
    unfold overlapX, overlapY in Hx.
  - pose proof (offX_left b rc Hb). abs_cases (offX b rc); lra.
  - pose proof (offX_right b rc Hw Hb). abs_cases (offX b rc); lra.
  - pose proof (offY_top b rc Hb). abs_cases (offY b rc); lra.
  - pose proof (offY_bottom b rc Hh Hb). abs_cases (offY b rc); lra.
Qed.

Lemma placed_separated (b : Ball.t) (rc : Rect.t) (e : Edge) (b' : Ball.t) :
  wf_ball b -> wf_rect rc -> Ball.r b' = Ball.r b ->
  match e with
  | EdgeLeft => Ball.x b' == Rect.x rc - Ball.r b - 0.5
  | EdgeRight => Ball.x b' == Rect.x rc + Rect.w rc + Ball.r b + 0.5
  | EdgeTop => Ball.y b' == Rect.y rc - Ball.r b - 0.5
  | EdgeBottom => Ball.y b' == Rect.y rc + Rect.h rc + Ball.r b + 0.5
  end ->
  separated b' rc.
Proof.
  unfold wf_ball. intros Hb Hrc Hr H.
  destruct e;
    [apply separated_left | apply separated_right
     | apply separated_top | apply separated_bottom];
    rewrite ?Hr; auto; lra.
Qed.

(** On an overlap the function takes the degenerate or the normal branch. *)
Lemma reflect_cases (b : Ball.t) (rc : Rect.t) :
  overlaps b rc ->
  let b' := snd (reflectBallFromRect b rc) in
  (centered b rc /\ pushedOut b rc (nearestEdge b rc) b')
  \/ (~ centered b rc /\ exists e, bounced b rc e b').
Proof.
  intros Ho b'.
  destruct (Qeqb (Qabs (offX b rc)) 0 && Qeqb (Qabs (offY b rc)) 0) eqn:C.
  - apply centered_test in C. left. split; [exact C |].
    apply reflect_centered; assumption.
  - assert (Hn : ~ centered b rc).
    { intros Hc. apply centered_test in Hc. congruence. }
    right. split; [exact Hn |].
    destruct (Qlt_le_dec (overlapX b rc) (overlapY b rc)) as [L | L].
    + destruct (reflect_normal_X b rc Ho Hn L); [exists EdgeLeft | exists EdgeRight];
        assumption.
    + destruct (reflect_normal_Y b rc Ho Hn L); [exists EdgeTop | exists EdgeBottom];
        assumption.
Qed.


(** Closed goals over concrete rationals. *)
Ltac by_computation :=
  vm_compute; first [reflexivity | discriminate | intuition discriminate].

(** ** Properties of the collision function *)

(** C8. For every ball and rectangle that do not overlap (the squared
    distance from the ball center to the closest point of the rectangle
    exceeds the squared radius), [reflectBallFromRect] returns false and
    leaves the ball (position, velocity and radius) as it was. *)
Theorem reflect_miss (b : Ball.t) (rc : Rect.t) :
  separated b rc -> reflectBallFromRect b rc = (false, b).
Proof.
  intros H. unfold reflectBallFromRect.
  apply Qltb_true in H. unfold Qgtb. rewrite H. reflexivity.
Qed.

Lemma reflect_miss_witness :
  let b := Ball.mk 180 300 180 (- (260)) 6 in
  let rc := rect_of (newBrick 4 3) in
  separated b rc /\ reflectBallFromRect b rc = (false, b).
Proof.
  intros b rc. split; [by_computation |].
  apply (reflect_miss b rc). by_computation.
Defined.

(** C1, as the code has it.  For every ball (non-negative radius) and
    axis-aligned rectangle (non-negative width and height) that overlap,
    one call reports a hit and leaves the ball clear of the rectangle: the
    squared distance from the new center to the closest point of the
    rectangle exceeds the squared radius.  When some offset from the closest
    point is nonzero, exactly one of [vx], [vy] is negated and the other is
    untouched.  When the center lies on the rectangle, only the component of
    the push axis is written, and it is forced to point away from the
    rectangle (minus its absolute value when the ball is put before the
    left or top edge, its absolute value when it is put past the right or
    bottom edge); the other component is untouched. *)
Theorem reflect_resolves_overlap (b : Ball.t) (rc : Rect.t) :
  wf_ball b -> wf_rect rc -> overlaps b rc ->
  let b' := snd (reflectBallFromRect b rc) in
  fst (reflectBallFromRect b rc) = true
  /\ separated b' rc
  /\ (~ centered b rc ->
      (Ball.vx b' == - Ball.vx b /\ Ball.vy b' = Ball.vy b)
      \/ (Ball.vx b' = Ball.vx b /\ Ball.vy b' == - Ball.vy b))
  /\ (centered b rc ->
      (Ball.vy b' = Ball.vy b
       /\ ((Ball.x b' < Rect.x rc /\ Ball.vx b' == - Qabs (Ball.vx b))
           \/ (Rect.x rc + Rect.w rc < Ball.x b' /\ Ball.vx b' == Qabs (Ball.vx b))))
      \/ (Ball.vx b' = Ball.vx b
          /\ ((Ball.y b' < Rect.y rc /\ Ball.vy b' == - Qabs (Ball.vy b))
              \/ (Rect.y rc + Rect.h rc < Ball.y b' /\ Ball.vy b' == Qabs (Ball.vy b))))).
Proof.
  intros Hb Hrc Ho b'.
  pose proof (reflect_r b rc) as Hr. fold b' in Hr.
  pose proof (reflect_cases b rc Ho) as Hcases. cbv zeta in Hcases.
  fold b' in Hcases.
  assert (Hplaced : exists e,
    match e with
    | EdgeLeft => Ball.x b' == Rect.x rc - Ball.r b - 0.5
    | EdgeRight => Ball.x b' == Rect.x rc + Rect.w rc + Ball.r b + 0.5
    | EdgeTop => Ball.y b' == Rect.y rc - Ball.r b - 0.5
    | EdgeBottom => Ball.y b' == Rect.y rc + Rect.h rc + Ball.r b + 0.5
    end).
  { destruct Hcases as [[_ Hp] | [_ [e Hbo]]].
    - exists (nearestEdge b rc). destruct (nearestEdge b rc); cbn in Hp; tauto.
    - exists e. apply (bounced_placed b rc e b' Hrc Hbo). }
  split; [apply reflect_hit; exact Ho |].
  split.
  { destruct Hplaced as [e He]. apply (placed_separated b rc e b'); assumption. }
  split.
  - intros Hn. destruct Hcases as [[Hc _] | [_ [e Hbo]]]; [contradiction |].
    destruct e; cbn in Hbo; tauto.
  - intros Hc. destruct Hcases as [[_ Hp] | [Hn _]]; [| contradiction].
    unfold wf_ball in Hb. destruct Hrc as [Hw Hh].
    destruct (nearestEdge b rc); cbn in Hp;
      destruct Hp as (Hpos & Hv & Ho1 & Ho2).
    + left. split; [exact Ho2 |]. left. split; [lra | exact Hv].
    + left. split; [exact Ho2 |]. right. split; [lra | exact Hv].
    + right. split; [exact Ho2 |]. left. split; [lra | exact Hv].
    + right. split; [exact Ho2 |]. right. split; [lra | exact Hv].
Qed.

Lemma reflect_resolves_overlap_witness :
  let b := Ball.mk 8 100 (- (180)) (- (260)) 6 in
  let rc := rect_of (newBrick 0 0) in
  overlaps b rc
  /\ separated (snd (reflectBallFromRect b rc)) rc
  /\ Ball.vx (snd (reflectBallFromRect b rc)) == 180.
Proof.
  intros b rc.
  assert (Hb : wf_ball b) by by_computation.
  assert (Hrc : wf_rect rc) by by_computation.
  assert (Ho : overlaps b rc) by by_computation.
  destruct (reflect_resolves_overlap b rc Hb Hrc Ho) as (_ & Hs & _ & _).
  split; [exact Ho |]. split; [exact Hs |]. by_computation.
Defined.

(** C1 as stated fails when the center lies on the rectangle and the
    velocity already points away from the nearest edge: the ball is pushed
    out through the left edge and neither component changes sign. *)
Lemma reflect_centered_no_flip :
  let b := Ball.mk 5 50 (- (100)) 50 6 in
  let rc := Rect.mk 0 0 100 100 in
  wf_ball b /\ wf_rect rc /\ overlaps b rc /\ centered b rc
  /\ fst (reflectBallFromRect b rc) = true
  /\ ~ flipsExactlyOne b (snd (reflectBallFromRect b rc)).
Proof.
  intros b rc. repeat split; by_computation.
Qed.

(** C2, as the code has it.  On an overlap the function reports a hit and
    corrects along one axis.  Normal case (some offset nonzero): the X axis
    when its overlap [r - |dx|] is strictly smaller than [r - |dy|], the Y
    axis otherwise (so on a tie); the ball center is beyond the rectangle
    on that axis and is moved by the overlap plus 0.5 further away, and the
    velocity component of that axis is negated.  Degenerate case (both
    offsets zero): the ball is put a radius plus 0.5 outside the nearest of
    the four edges, with ties broken in the order left, right, top, bottom,
    and the matching velocity component is forced to point away from that
    edge (it is negated only if it pointed inward). *)
Theorem reflect_axis_choice (b : Ball.t) (rc : Rect.t) :
  overlaps b rc ->
  let b' := snd (reflectBallFromRect b rc) in
  fst (reflectBallFromRect b rc) = true
  /\ (~ centered b rc ->
      (overlapX b rc < overlapY b rc ->
       bounced b rc EdgeLeft b' \/ bounced b rc EdgeRight b')
      /\ (overlapY b rc <= overlapX b rc ->
          bounced b rc EdgeTop b' \/ bounced b rc EdgeBottom b'))
  /\ (centered b rc -> pushedOut b rc (nearestEdge b rc) b').
Proof.
  intros Ho b'. split; [apply reflect_hit; exact Ho |]. split.
  - intros Hn. split; intros H.
    + apply reflect_normal_X; assumption.
    + apply reflect_normal_Y; assumption.
  - intros Hc. apply reflect_centered; assumption.
Qed.

Lemma reflect_axis_choice_witness :
  let b := Ball.mk 100 200 180 (- (260)) 6 in
  let rc := rect_of (newBrick 4 2) in
  overlaps b rc /\ bounced b rc EdgeBottom (snd (reflectBallFromRect b rc)).
Proof.
  intros b rc.
  assert (Ho : overlaps b rc) by by_computation.
  split; [exact Ho |].
  destruct (reflect_axis_choice b rc Ho) as (_ & Hn & _).
  assert (Hnc : ~ centered b rc).
  { intros [_ H]. revert H. by_computation. }
  destruct (Hn Hnc) as [_ HY].
  destruct HY as [[H _] | H]; [by_computation | | exact H].
  revert H. by_computation.
Defined.

(** C2 as stated fails in the degenerate case: with the center on the
    paddle, nearest to its top edge, and the ball already moving up, the
    vertical velocity is kept, not inverted. *)
Lemma reflect_centered_keeps_outward_velocity :
  let b := Ball.mk 160 603 90 (- (260)) 6 in
  let rc := rect_of (Paddle.mk 150 600 60 10 150) in
  overlaps b rc /\ centered b rc /\ nearestEdge b rc = EdgeTop
  /\ Ball.y (snd (reflectBallFromRect b rc)) == Rect.y rc - Ball.r b - 0.5
  /\ Ball.vy (snd (reflectBallFromRect b rc)) == Ball.vy b
  /\ ~ Ball.vy (snd (reflectBallFromRect b rc)) == - Ball.vy b.
Proof.
  intros b rc. repeat split; by_computation.
Qed.

(** ** The brick loop *)

Lemma reflect_miss_ball (b : Ball.t) (rc : Rect.t) :
  fst (reflectBallFromRect b rc) = false -> snd (reflectBallFromRect b rc) = b.
Proof.
  unfold reflectBallFromRect.
  destruct (Qgtb _ _); [reflexivity |].
  repeat match goal with
  | |- context [if ?c then _ else _] => destruct c
  end; discriminate.
Qed.

Lemma brickCollisions_outcome (b : Ball.t) (sc : Z) (bs : list Brick.t) :
  BrickOutcome b sc bs (brickCollisions b sc bs).
Proof.
  induction bs as [| k rest IH]; cbn [brickCollisions].
  - apply NoBrickHit. constructor.
  - destruct (Brick.active k) eqn:A.
    + destruct (reflectBallFromRect b (rect_of k)) as [hitp b1] eqn:R.
      destruct hitp.
      * replace b1 with (snd (reflectBallFromRect b (rect_of k))) by (rewrite R; reflexivity).
        apply (FirstBrickHit b sc (k :: rest) [] rest k); [reflexivity | constructor |].
        unfold brickHit. rewrite A, R. reflexivity.
      * assert (b1 = b) as ->.
        { pose proof (reflect_miss_ball b (rect_of k)) as M. rewrite R in M.
          apply M. reflexivity. }
        assert (Hk : brickHit b k = false).
        { unfold brickHit. rewrite R. apply andb_false_r. }
        inversion IH as [Hall Heq | pre post k' Hsplit Hpre Hhit Heq].
        -- apply NoBrickHit. constructor; assumption.
        -- rewrite Hsplit.
           apply (FirstBrickHit b sc (k :: pre ++ k' :: post) (k :: pre) post k');
             [reflexivity | constructor; assumption | assumption].
    + assert (Hk : brickHit b k = false).
      { unfold brickHit. rewrite A. reflexivity. }
      inversion IH as [Hall Heq | pre post k' Hsplit Hpre Hhit Heq].
      * apply NoBrickHit. constructor; assumption.
      * rewrite Hsplit.
        apply (FirstBrickHit b sc (k :: pre ++ k' :: post) (k :: pre) post k');
          [reflexivity | constructor; assumption | assumption].
Qed.

Lemma allCleared_app (l1 l2 : list Brick.t) :
  allCleared (l1 ++ l2) = allCleared l1 && allCleared l2.
Proof. apply forallb_app. Qed.

Lemma activeCount_app (l1 l2 : list Brick.t) :
  activeCount (l1 ++ l2) = (activeCount l1 + activeCount l2)%nat.
Proof. unfold activeCount. rewrite filter_app, length_app. reflexivity. Qed.

Lemma activeCount_hit (b : Ball.t) (pre post : list Brick.t) (k : Brick.t) :
  brickHit b k = true ->
  activeCount (pre ++ k :: post)
  = S (activeCount (pre ++ Brick_set_active false k :: post)).
Proof.
  intros H. apply andb_true_iff in H. destruct H as [A _].
  rewrite !activeCount_app. unfold activeCount. cbn. rewrite A. cbn. lia.
Qed.

Lemma allCleared_activeCount (bs : list Brick.t) :
  allCleared bs = true <-> activeCount bs = O.
Proof.
  unfold allCleared, activeCount. induction bs as [| k rest IH]; cbn.
  - tauto.
  - destruct (Brick.active k); cbn.
    + split; discriminate.
    + exact IH.
Qed.

Lemma gridShaped_deactivate (pre post : list Brick.t) (k : Brick.t) :
  map rect_of (pre ++ Brick_set_active false k :: post)
  = map rect_of (pre ++ k :: post).
Proof. rewrite !map_app. reflexivity. Qed.

(** ** What each stage of a tick leaves alone *)

Lemma BrickOutcome_cases (b : Ball.t) (sc : Z) (bs : list Brick.t)
      (b' : Ball.t) (sc' : Z) (bs' : list Brick.t) :
  BrickOutcome b sc bs (b', sc', bs') ->
  (b' = b /\ sc' = sc /\ bs' = bs
   /\ Forall (fun k => brickHit b k = false) bs)
  \/ (exists pre k post,
        bs = pre ++ k :: post
        /\ Forall (fun k' => brickHit b k' = false) pre
        /\ brickHit b k = true
        /\ b' = snd (reflectBallFromRect b (rect_of k))
        /\ sc' = (sc + 10)%Z
        /\ bs' = pre ++ Brick_set_active false k :: post).
Proof.
  intros H. inversion H as [Hall Heq | pre post k Hsplit Hpre Hhit Heq].
  - left. repeat split. exact Hall.
  - right. exists pre, k, post. repeat split; assumption.
Qed.

Lemma brickStage_outcome (g : Game) :
  (ball (brickStage g) = ball g /\ score (brickStage g) = score g
   /\ bricks (brickStage g) = bricks g
   /\ Forall (fun k => brickHit (ball g) k = false) (bricks g))
  \/ (exists pre k post,
        bricks g = pre ++ k :: post
        /\ Forall (fun k' => brickHit (ball g) k' = false) pre
        /\ brickHit (ball g) k = true
        /\ ball (brickStage g) = snd (reflectBallFromRect (ball g) (rect_of k))
        /\ score (brickStage g) = (score g + 10)%Z
        /\ bricks (brickStage g) = pre ++ Brick_set_active false k :: post).
Proof.
  pose proof (brickCollisions_outcome (ball g) (score g) (bricks g)) as H.
  unfold brickStage.
  destruct (brickCollisions (ball g) (score g) (bricks g)) as [[b sc] bs].
  apply BrickOutcome_cases in H. exact H.
Qed.

Lemma brickStage_frame (g : Game) :
  state (brickStage g) = state g /\ lives (brickStage g) = lives g
  /\ paddle (brickStage g) = paddle g /\ input (brickStage g) = input g.
Proof.
  unfold brickStage.
  destruct (brickCollisions (ball g) (score g) (bricks g)) as [[b sc] bs].
  repeat split.
Qed.

Lemma afterBricks_frame (g : Game) :
  state (afterBricks g) = state g /\ lives (afterBricks g) = lives g
  /\ paddle (afterBricks g) = paddle g /\ input (afterBricks g) = input g.
Proof.
  unfold afterBricks.
  destruct (brickStage_frame (paddleStage (wallStage g))) as (-> & -> & -> & ->).
  repeat split.
Qed.

Lemma outOfBounds_frame (rnd : Q) (g : Game) :
  score (outOfBounds rnd g) = score g /\ bricks (outOfBounds rnd g) = bricks g
  /\ paddle (outOfBounds rnd g) = paddle g /\ input (outOfBounds rnd g) = input g.
Proof.
  unfold outOfBounds.
  destruct (ballOut (ball g)); [| repeat split].
  cbn [lives set_lives]. destruct (_ <=? _)%Z; repeat split.
Qed.

Lemma winCheck_frame (g : Game) :
  score (winCheck g) = score g /\ lives (winCheck g) = lives g
  /\ paddle (winCheck g) = paddle g /\ ball (winCheck g) = ball g
  /\ bricks (winCheck g) = bricks g /\ input (winCheck g) = input g.
Proof.
  unfold winCheck. destruct (allCleared (bricks g)); repeat split.
Qed.

Lemma integrate_frame (dt : Q) (g : Game) :
  state (integrate dt g) = state g /\ score (integrate dt g) = score g
  /\ lives (integrate dt g) = lives g /\ bricks (integrate dt g) = bricks g
  /\ input (integrate dt g) = input g.
Proof. repeat split. Qed.

Lemma update_playing (dt rnd : Q) (g : Game) :
  state g = playing ->
  update dt rnd g = winCheck (outOfBounds rnd (afterBricks (integrate dt g))).
Proof. intros H. unfold update. rewrite H. reflexivity. Qed.

Lemma update_idle (dt rnd : Q) (g : Game) :
  state g <> playing -> update dt rnd g = g.
Proof.
  intros H. unfold update. destruct (state g); try reflexivity. contradiction.
Qed.

(** ** After a hit the ball is near the rectangle *)

Lemma overlaps_offY (b : Ball.t) (rc : Rect.t) :
  0 <= Ball.r b -> overlaps b rc -> offY b rc <= Ball.r b.
Proof.
  unfold overlaps, dist2. intros Hr Ho.
  pose proof (sq_nonneg (offX b rc)). nra.
Qed.

Lemma reflect_hit_not_below (b : Ball.t) (rc : Rect.t) :
  0 <= Ball.r b -> wf_rect rc -> overlaps b rc ->
  Ball.y (snd (reflectBallFromRect b rc)) - Ball.r b
  <= Rect.y rc + Rect.h rc + 0.5.
Proof.
  intros Hr Hrc Ho. pose proof Hrc as [Hw Hh].
  assert (Hy : Ball.y b - Ball.r b <= Rect.y rc + Rect.h rc).
  { pose proof (overlaps_offY b rc Hr Ho) as H. unfold offY, closestY in H.
    pose proof (clamp_range (Ball.y b) (Rect.y rc) (Rect.y rc + Rect.h rc)).
    lra. }
  destruct (reflect_cases b rc Ho) as [[_ Hp] | [_ [e Hb]]].
  - destruct (nearestEdge b rc); cbn in Hp; destruct Hp as (H1 & _ & H2 & _);
      rewrite ?H2; lra.
  - pose proof (bounced_placed b rc e _ Hrc Hb) as Hpl.
    destruct e; cbn in Hb; destruct Hb as (_ & _ & _ & H2 & _);
      rewrite ?H2; lra.
Qed.

Lemma brickGrid_rects :
  Forall (fun rc => wf_rect rc /\ Rect.y rc + Rect.h rc <= 216)
         (map rect_of brickGrid).
Proof. repeat constructor; by_computation. Qed.

Lemma gridShaped_rect (bs : list Brick.t) (k : Brick.t) :
  gridShaped bs -> In k bs ->
  wf_rect (rect_of k) /\ Rect.y (rect_of k) + Rect.h (rect_of k) <= 216.
Proof.
  intros Hg Hin.
  pose proof brickGrid_rects as H. rewrite <- Hg in H.
  rewrite Forall_forall in H. apply H. apply in_map. exact Hin.
Qed.

(** A ball that has just hit a brick of the grid is not out of bounds. *)
Lemma brick_hit_not_out (b : Ball.t) (bs : list Brick.t) (k : Brick.t) :
  0 <= Ball.r b -> gridShaped bs -> In k bs -> brickHit b k = true ->
  ballOut (snd (reflectBallFromRect b (rect_of k))) = false.
Proof.
  intros Hr Hg Hin Hhit.
  apply andb_true_iff in Hhit. destruct Hhit as [_ Hhit].
  apply reflect_hit_inv in Hhit.
  destruct (gridShaped_rect bs k Hg Hin) as [Hrc Hlow].
  pose proof (reflect_hit_not_below b (rect_of k) Hr Hrc Hhit) as H.
  unfold ballOut, Qgtb. apply Qltb_false. rewrite reflect_r.
  unfold GAME_H. lra.
Qed.

(** A ball well below the grid hits no brick. *)
Lemma below_grid_no_hit (b : Ball.t) (bs : list Brick.t) :
  gridShaped bs -> 0 <= Ball.r b -> 216 + Ball.r b < Ball.y b ->
  Forall (fun k => brickHit b k = false) bs.
Proof.
  intros Hg Hr Hy. apply Forall_forall. intros k Hin.
  destruct (gridShaped_rect bs k Hg Hin) as [Hrc Hlow].
  unfold brickHit. rewrite reflect_miss; [apply andb_false_r |].
  apply separated_bottom; [exact Hr | exact Hrc | lra].
Qed.

(** ** Stages and the ball radius *)

Lemma wallCollisions_r (b : Ball.t) : Ball.r (wallCollisions b) = Ball.r b.
Proof.
  unfold wallCollisions.
  repeat match goal with
  | |- context [if ?c then _ else _] => destruct c
  end; reflexivity.
Qed.

Lemma paddleCollision_r (p : Paddle.t) (b : Ball.t) :
  Ball.r (paddleCollision p b) = Ball.r b.
Proof.
  unfold paddleCollision. pose proof (reflect_r b (rect_of p)) as H.
  destruct (reflectBallFromRect b (rect_of p)) as [[] b1]; cbn in *; exact H.
Qed.

Lemma brickStage_r (g : Game) : Ball.r (ball (brickStage g)) = Ball.r (ball g).
Proof.
  destruct (brickStage_outcome g) as [(-> & _) | (pre & k & post & _ & _ & _ & -> & _)].
  - reflexivity.
  - apply reflect_r.
Qed.

Lemma afterBricks_r (g : Game) : Ball.r (ball (afterBricks g)) = Ball.r (ball g).
Proof.
  unfold afterBricks. rewrite brickStage_r. cbn [paddleStage wallStage ball set_ball].
  rewrite paddleCollision_r, wallCollisions_r. reflexivity.
Qed.

(** The ball the brick loop starts from. *)
Lemma afterBricks_outcome (g : Game) :
  let b := ball (paddleStage (wallStage g)) in
  (ball (afterBricks g) = b /\ score (afterBricks g) = score g
   /\ bricks (afterBricks g) = bricks g
   /\ Forall (fun k => brickHit b k = false) (bricks g))
  \/ (exists pre k post,
        bricks g = pre ++ k :: post
        /\ Forall (fun k' => brickHit b k' = false) pre
        /\ brickHit b k = true
        /\ ball (afterBricks g) = snd (reflectBallFromRect b (rect_of k))
        /\ score (afterBricks g) = (score g + 10)%Z
        /\ bricks (afterBricks g) = pre ++ Brick_set_active false k :: post).
Proof. apply (brickStage_outcome (paddleStage (wallStage g))). Qed.

(** ** The out-of-bounds check and the win check, by cases *)

Lemma outOfBounds_cases (rnd : Q) (g : Game) :
  (ballOut (ball g) = false /\ outOfBounds rnd g = g)
  \/ (ballOut (ball g) = true /\ (lives g - 1 <= 0)%Z
      /\ outOfBounds rnd g = set_state lose (set_lives (lives g - 1)%Z g))
  \/ (ballOut (ball g) = true /\ (0 < lives g - 1)%Z
      /\ outOfBounds rnd g = resetBallOnPaddle rnd (set_lives (lives g - 1)%Z g)).
Proof.
  unfold outOfBounds. destruct (ballOut (ball g)); [| left; split; reflexivity].
  right. cbn [lives set_lives].
  destruct (lives g - 1 <=? 0)%Z eqn:E.
  - left. apply Z.leb_le in E. repeat split; assumption.
  - right. apply Z.leb_gt in E. repeat split; assumption.
Qed.

Lemma winCheck_cases (g : Game) :
  (allCleared (bricks g) = true /\ winCheck g = set_state win g)
  \/ (allCleared (bricks g) = false /\ winCheck g = g).
Proof.
  unfold winCheck. destruct (allCleared (bricks g)); [left | right]; split; reflexivity.
Qed.

(** ** The invariant *)

Ltac inv_fields I :=
  destruct I as [inv_paddle_w0 inv_paddle_h0 inv_paddle_y0 inv_ball_r0 inv_grid0 inv_lives0 inv_score0
                 inv_not_paused0 inv_playing0 inv_win0 inv_lose0 inv_zero0].

Lemma Inv_initial : Inv initial.
Proof.
  constructor; cbn; try reflexivity; try lia; try discriminate;
    try (split; by_computation); try congruence.
Qed.

Lemma brickGrid_not_cleared : allCleared brickGrid = false.
Proof. reflexivity. Qed.

Lemma Inv_startNewGame (rnd : Q) (g : Game) : Inv g -> Inv (startNewGame rnd g).
Proof.
  intros I. inv_fields I.
  constructor; cbn; try assumption; try reflexivity; try lia; try discriminate.
  all: intros _; split; [lia | reflexivity].
Qed.

Lemma smoothing_range (x t m k : Q) :
  0 <= x <= m -> 0 <= t <= m -> 0 <= k <= 1 ->
  0 <= x + (t - x) * k <= m.
Proof. intros [? ?] [? ?] [? ?]. split; nra. Qed.

Lemma smoothing_factor (dt : Q) :
  0 <= dt -> 0 <= Qmin 1 (dt * PADDLE_SMOOTHING) <= 1.
Proof.
  intros H. unfold PADDLE_SMOOTHING.
  min_cases 1 (dt * 20); lra.
Qed.

Lemma afterBricks_gridShaped (g : Game) :
  map rect_of (bricks (afterBricks g)) = map rect_of (bricks g).
Proof.
  destruct (afterBricks_outcome g)
    as [(_ & _ & -> & _) | (pre & k & post & -> & _ & _ & _ & _ & ->)].
  - reflexivity.
  - apply gridShaped_deactivate.
Qed.

Lemma afterBricks_score (g : Game) :
  score (afterBricks g) = score g
  \/ score (afterBricks g) = (score g + 10)%Z.
Proof.
  destruct (afterBricks_outcome g)
    as [(_ & -> & _) | (pre & k & post & _ & _ & _ & _ & -> & _)];
    [left | right]; reflexivity.
Qed.

Lemma resetBallOnPaddle_frame (rnd : Q) (g : Game) :
  state (resetBallOnPaddle rnd g) = state g
  /\ score (resetBallOnPaddle rnd g) = score g
  /\ lives (resetBallOnPaddle rnd g) = lives g
  /\ paddle (resetBallOnPaddle rnd g) = paddle g
  /\ bricks (resetBallOnPaddle rnd g) = bricks g
  /\ input (resetBallOnPaddle rnd g) = input g
  /\ Ball.r (ball (resetBallOnPaddle rnd g)) = Ball.r (ball g).
Proof. repeat split. Qed.

Lemma outOfBounds_r (rnd : Q) (g : Game) :
  Ball.r (ball (outOfBounds rnd g)) = Ball.r (ball g).
Proof.
  destruct (outOfBounds_cases rnd g) as [[_ ->] | [(_ & _ & ->) | (_ & _ & ->)]];
    reflexivity.
Qed.

Lemma Inv_update (dt rnd : Q) (g : Game) :
  Inv g -> Inv (update dt rnd g).
Proof.
  intros I.
  destruct (Mode_eqb (state g) playing) eqn:M.
  2:{ rewrite update_idle; [exact I |]. intros E. rewrite E in M. discriminate. }
  assert (Hp : state g = playing) by (destruct (state g); try discriminate; reflexivity).
  rewrite (update_playing dt rnd g Hp).
  set (g0 := integrate dt g).
  set (g1 := afterBricks g0).
  set (g2 := outOfBounds rnd g1).
  inv_fields I.
  destruct (inv_playing0 Hp) as [Hl Hnc].
  assert (Hgs : gridShaped (bricks g)) by (apply inv_grid0; congruence).
  destruct (afterBricks_frame g0) as (Hs1 & Hl1 & Hp1 & Hi1).
  fold g1 in Hs1, Hl1, Hp1, Hi1.
  change (state g0) with (state g) in Hs1.
  change (lives g0) with (lives g) in Hl1.
  pose proof (afterBricks_gridShaped g0) as Hg1. fold g1 in Hg1.
  pose proof (afterBricks_score g0) as Hsc1. fold g1 in Hsc1.
  pose proof (afterBricks_r g0) as Hr1. fold g1 in Hr1.
  destruct (outOfBounds_frame rnd g1) as (Hsc2 & Hb2 & Hp2 & Hi2).
  fold g2 in Hsc2, Hb2, Hp2, Hi2.
  pose proof (outOfBounds_r rnd g1) as Hr2. fold g2 in Hr2.
  destruct (winCheck_frame g2) as (Hsc3 & Hl3 & Hp3 & Hbl3 & Hb3 & Hi3).
  assert (Hpad : paddle (winCheck g2) = paddle g0) by congruence.
  assert (Hlives2 : state g2 = playing /\ (1 <= lives g2)%Z
                    \/ state g2 = lose /\ lives g2 = 0%Z).
  { subst g2.
    destruct (outOfBounds_cases rnd g1) as [[_ ->] | [(_ & L & ->) | (_ & L & ->)]].
    - left. rewrite Hs1, Hl1. split; [exact Hp | exact Hl].
    - right. cbn. split; [reflexivity | lia].
    - left. cbn. split; [rewrite Hs1; exact Hp | lia]. }
  assert (Hfinal :
    (state (winCheck g2) = win /\ allCleared (bricks (winCheck g2)) = true)
    \/ (state (winCheck g2) = state g2 /\ allCleared (bricks (winCheck g2)) = false)).
  { destruct (winCheck_cases g2) as [[A ->] | [A ->]]; [left | right];
      split; auto. }
  constructor.
  - rewrite Hpad. exact inv_paddle_w0.
  - rewrite Hpad. exact inv_paddle_h0.
  - rewrite Hpad. exact inv_paddle_y0.
  - rewrite Hbl3, Hr2, Hr1. exact inv_ball_r0.
  - intros _. unfold gridShaped. rewrite Hb3, Hb2, Hg1. exact Hgs.
  - rewrite Hl3. destruct Hlives2 as [[_ ?] | [_ ?]]; lia.
  - rewrite Hsc3, Hsc2. cbn in Hsc1. destruct Hsc1 as [-> | ->]; lia.
  - destruct Hfinal as [[-> _] | [-> _]]; [discriminate |].
    destruct Hlives2 as [[-> _] | [-> _]]; discriminate.
  - intros E. rewrite Hl3.
    destruct Hfinal as [[E' _] | [E' A]]; [congruence |].
    split; [| exact A].
    destruct Hlives2 as [[_ ?] | [E2 _]]; [assumption | congruence].
  - intros E. destruct Hfinal as [[_ A] | [E' _]]; [exact A |].
    destruct Hlives2 as [[E2 _] | [E2 _]]; congruence.
  - intros E. rewrite Hl3.
    destruct Hfinal as [[E' _] | [E' A]]; [congruence |].
    split; [| exact A].
    destruct Hlives2 as [[E2 _] | [_ ?]]; [congruence | assumption].
  - rewrite Hl3. intros Z.
    destruct Hfinal as [[E' _] | [E' _]]; [right; exact E' |].
    left. rewrite E'. destruct Hlives2 as [[_ ?] | [E2 _]]; [lia | exact E2].
Qed.

Lemma Inv_set_input (i : Input.t) (g : Game) : Inv g -> Inv (set_input i g).
Proof. intros I. inv_fields I. constructor; assumption. Qed.

Lemma Inv_set_target (v : Q) (g : Game) :
  Inv g -> Inv (set_paddle (Paddle_set_targetX v (paddle g)) g).
Proof. intros I. inv_fields I. constructor; assumption. Qed.

Lemma Inv_pointerdown (rnd cx cy : Q) (rect : DOMRect.t) (g : Game) :
  Inv g -> Inv (pointerdown rnd cx cy rect g).
Proof.
  intros I. unfold pointerdown.
  destruct (is_over (state g)); [apply Inv_startNewGame; exact I |].
  destruct (Mode_eqb (state g) playing); [| exact I].
  apply Inv_set_input. exact I.
Qed.

Lemma Inv_pointermove (cx cy : Q) (rect : DOMRect.t) (g : Game) :
  Inv g -> Inv (pointermove cx cy rect g).
Proof.
  intros I. unfold pointermove.
  destruct (_ && _); [| exact I].
  set (i := Input.mk (Input.pointerActive (input g))
              (fst (screenToGame cx cy rect)) (Input.grabOffset (input g))).
  exact (Inv_set_target _ (set_input i g) (Inv_set_input i g I)).
Qed.

Lemma Inv_keydown (rnd : Q) (key : Key) (g : Game) :
  Inv g -> Inv (keydown rnd key g).
Proof.
  intros I. unfold keydown.
  destruct (is_over (state g)).
  { destruct (_ || _); [apply Inv_startNewGame |]; exact I. }
  destruct (Mode_eqb (state g) playing); [| exact I].
  destruct key; cbn -[clamp GAME_W]; try exact I;
    apply (Inv_set_target _ g I).
Qed.

Lemma Inv_handle (rnd : Q) (e : Event) (g : Game) :
  Inv g -> Inv (handle rnd e g).
Proof.
  intros I. destruct e; cbn [handle].
  - apply Inv_update; exact I.
  - apply Inv_pointerdown; exact I.
  - apply Inv_pointermove; exact I.
  - apply Inv_set_input; exact I.
  - apply Inv_set_input; exact I.
  - apply Inv_keydown; exact I.
Qed.

Lemma reachable_Inv (g : Game) : reachable g -> Inv g.
Proof.
  induction 1 as [| g rnd e _ IH He].
  - apply Inv_initial.
  - apply Inv_handle; assumption.
Qed.

(** ** The paddle stays inside *)

Section PaddleInside.
Variable g : Game.
Hypothesis Hw : Paddle.w (paddle g) = 60.

Lemma paddleInside_startNewGame (rnd : Q) : paddleInside (startNewGame rnd g).
Proof.
  unfold paddleInside. cbn. rewrite Hw. repeat split; by_computation.
Qed.

Lemma paddleInside_set_target (v : Q) :
  paddleInside g ->
  paddleInside
    (set_paddle
       (Paddle_set_targetX (clamp v 0 (GAME_W - Paddle.w (paddle g))) (paddle g)) g).
Proof.
  unfold paddleInside. intros [Hx _]. cbn -[clamp GAME_W]. split; [exact Hx |].
  rewrite Hw. apply clamp_range. by_computation.
Qed.

Lemma paddleInside_integrate (dt : Q) :
  0 <= dt -> paddleInside g -> paddleInside (integrate dt g).
Proof.
  unfold paddleInside. intros Hdt [Hx Ht]. cbn -[GAME_W PADDLE_SMOOTHING].
  split; [| exact Ht].
  apply smoothing_range; try assumption. apply smoothing_factor. exact Hdt.
Qed.
End PaddleInside.

Lemma update_paddle (dt rnd : Q) (g : Game) :
  state g = playing -> paddle (update dt rnd g) = paddle (integrate dt g).
Proof.
  intros Hp. rewrite (update_playing dt rnd g Hp).
  destruct (winCheck_frame (outOfBounds rnd (afterBricks (integrate dt g))))
    as (_ & _ & -> & _).
  destruct (outOfBounds_frame rnd (afterBricks (integrate dt g))) as (_ & _ & -> & _).
  destruct (afterBricks_frame (integrate dt g)) as (_ & _ & -> & _).
  reflexivity.
Qed.

Lemma paddleInside_paddle (g g' : Game) :
  paddle g' = paddle g -> paddleInside g -> paddleInside g'.
Proof. unfold paddleInside. intros ->. tauto. Qed.

Lemma paddleInside_handle (rnd : Q) (e : Event) (g : Game) :
  event_ok e -> Inv g -> paddleInside g -> paddleInside (handle rnd e g).
Proof.
  intros He I H. pose proof (inv_paddle_w g I) as Hw.
  destruct e; cbn [handle].
  - destruct (Mode_eqb (state g) playing) eqn:M.
    + assert (Hp : state g = playing)
        by (destruct (state g); try discriminate; reflexivity).
      apply (paddleInside_paddle (integrate dt g)).
      * apply update_paddle. exact Hp.
      * apply paddleInside_integrate; [apply He | exact H].
    + rewrite update_idle; [exact H |]. intros E. rewrite E in M. discriminate.
  - unfold pointerdown.
    destruct (is_over (state g)); [apply paddleInside_startNewGame; exact Hw |].
    destruct (Mode_eqb (state g) playing); exact H.
  - unfold pointermove. destruct (_ && _); [| exact H].
    set (i := Input.mk (Input.pointerActive (input g))
                (fst (screenToGame clientX clientY rect)) (Input.grabOffset (input g))).
    exact (paddleInside_set_target (set_input i g) Hw _ H).
  - exact H.
  - exact H.
  - unfold keydown.
    destruct (is_over (state g)).
    { destruct (_ || _); [apply paddleInside_startNewGame; exact Hw | exact H]. }
    destruct (Mode_eqb (state g) playing); [| exact H].
    destruct key; cbn -[clamp GAME_W]; try exact H;
      exact (paddleInside_set_target g Hw _ H).
Qed.

Lemma paddleInside_initial : paddleInside initial.
Proof. unfold paddleInside. cbn. repeat split; by_computation. Qed.

Lemma reachable_paddleInside (g : Game) : reachable g -> paddleInside g.
Proof.
  induction 1 as [| g rnd e Hr IH He].
  - apply paddleInside_initial.
  - apply paddleInside_handle; [exact He | apply reachable_Inv; exact Hr | exact IH].
Qed.

(** ** Properties of the game *)

(** A state reached in the middle of a game, used to exercise the
    statements below: a new game is started, the paddle is dragged, and a
    frame passes. *)
Lemma reachable_sample :
  reachable
    (handle 0.25 (EvFrame MAX_DT)
       (handle 0.25 (EvPointerMove 300 500 (DOMRect.mk 0 0 360 640))
          (handle 0.25 (EvPointerDown 200 600 (DOMRect.mk 0 0 360 640))
             (handle 0.75 (EvKeyDown KeyEnter) initial)))).
Proof.
  repeat (apply reach_handle; [| by_computation]). apply reach_initial.
Qed.

(** C7. In every reachable state (the initial one, after each tick with its
    smoothing step, after each pointer or key event) the paddle lies inside
    the playfield, [0 <= paddle.x <= GAME_W - paddle.w], and its width and
    height are the ones it was created with.  Ticks are given the time
    steps [gameLoop] computes, which lie in [0, MAX_DT], and pointer events
    come with a canvas box of positive size. *)
Theorem paddle_stays_in_playfield (g : Game) :
  reachable g ->
  0 <= Paddle.x (paddle g) <= GAME_W - Paddle.w (paddle g)
  /\ Paddle.w (paddle g) = Paddle.w (paddle initial)
  /\ Paddle.h (paddle g) = Paddle.h (paddle initial).
Proof.
  intros H. pose proof (reachable_Inv g H) as I.
  destruct (reachable_paddleInside g H) as [Hx _].
  split; [exact Hx |]. split; [apply (inv_paddle_w g I) | apply (inv_paddle_h g I)].
Qed.

Lemma paddle_stays_in_playfield_witness :
  let g := handle 0.25 (EvFrame MAX_DT)
             (handle 0.25 (EvPointerMove 300 500 (DOMRect.mk 0 0 360 640))
                (handle 0.25 (EvPointerDown 200 600 (DOMRect.mk 0 0 360 640))
                   (handle 0.75 (EvKeyDown KeyEnter) initial))) in
  0 <= Paddle.x (paddle g) <= GAME_W - Paddle.w (paddle g)
  /\ Paddle.w (paddle g) = Paddle.w (paddle initial)
  /\ Paddle.h (paddle g) = Paddle.h (paddle initial).
Proof.
  intros g. apply (paddle_stays_in_playfield g).
  repeat (apply reach_handle; [| by_computation]). apply reach_initial.
Defined.

(** C3. From every reachable state in which a game is being played, one
    tick ends in mode [win] if and only if every brick is inactive when the
    tick ends, and in mode [lose] if and only if [lives] is zero and some
    brick is still active; the win check looks at the bricks as the brick
    loop of the same tick left them, so the tick that destroys the last
    brick ends in [win].  The same two equivalences hold in every reachable
    state once a game has been started (before that, in [menu], there is no
    brick grid and a tick does nothing). *)
Theorem win_lose_reached (g : Game) :
  reachable g ->
  (forall dt rnd, state g = playing ->
     let g' := update dt rnd g in
     (state g' = win <-> allCleared (bricks g') = true)
     /\ (state g' = lose <-> lives g' = 0%Z /\ allCleared (bricks g') = false)
     /\ bricks g' = bricks (afterBricks (integrate dt g))
     /\ (allCleared (bricks (afterBricks (integrate dt g))) = true -> state g' = win))
  /\ (state g <> menu -> (state g = win <-> allCleared (bricks g) = true))
  /\ (state g = lose <-> lives g = 0%Z /\ allCleared (bricks g) = false).
Proof.
  intros H. pose proof (reachable_Inv g H) as I.
  assert (Hstate : forall g0, Inv g0 ->
    (state g0 <> menu -> (state g0 = win <-> allCleared (bricks g0) = true))
    /\ (state g0 = lose <-> lives g0 = 0%Z /\ allCleared (bricks g0) = false)).
  { intros g0 I0. split.
    - intros Hm. split; [apply (inv_win g0 I0) |].
      intros A. pose proof (inv_not_paused g0 I0) as Hnp.
      destruct (state g0) eqn:E; try congruence.
      + destruct (inv_playing g0 I0 E); congruence.
      + destruct (inv_lose g0 I0 E); congruence.
    - split; [apply (inv_lose g0 I0) |].
      intros [Z A]. destruct (inv_zero g0 I0 Z) as [E | E]; [exact E |].
      pose proof (inv_win g0 I0 E). congruence. }
  split; [| apply Hstate; exact I].
  intros dt rnd Hp g'.
  pose proof (Inv_update dt rnd g I) as I'. fold g' in I'.
  assert (Hb : bricks g' = bricks (afterBricks (integrate dt g))).
  { unfold g'. rewrite (update_playing dt rnd g Hp).
    destruct (winCheck_frame (outOfBounds rnd (afterBricks (integrate dt g))))
      as (_ & _ & _ & _ & -> & _).
    destruct (outOfBounds_frame rnd (afterBricks (integrate dt g))) as (_ & -> & _).
    reflexivity. }
  assert (Hnm : state g' <> menu).
  { unfold g'. rewrite (update_playing dt rnd g Hp).
    destruct (winCheck_cases (outOfBounds rnd (afterBricks (integrate dt g))))
      as [[_ ->] | [_ ->]]; [discriminate |].
    destruct (outOfBounds_cases rnd (afterBricks (integrate dt g)))
      as [[_ ->] | [(_ & _ & ->) | (_ & _ & ->)]]; cbn;
      try discriminate;
      destruct (afterBricks_frame (integrate dt g)) as (-> & _);
      cbn; rewrite Hp; discriminate. }
  destruct (Hstate g' I') as [Hw Hl].
  split; [apply Hw; exact Hnm |]. split; [exact Hl |]. split; [exact Hb |].
  intros A. apply Hw; [exact Hnm |]. rewrite Hb. exact A.
Qed.

Lemma win_lose_reached_witness :
  let g := handle 0.25 (EvFrame MAX_DT)
             (handle 0.25 (EvPointerMove 300 500 (DOMRect.mk 0 0 360 640))
                (handle 0.25 (EvPointerDown 200 600 (DOMRect.mk 0 0 360 640))
                   (handle 0.75 (EvKeyDown KeyEnter) initial))) in
  state g = playing
  /\ (state (update MAX_DT 0.25 g) = win
      <-> allCleared (bricks (update MAX_DT 0.25 g)) = true).
Proof.
  intros g. split; [reflexivity |].
  destruct (win_lose_reached g reachable_sample) as [Htick _].
  destruct (Htick MAX_DT 0.25 eq_refl) as [Hw _]. exact Hw.
Defined.

(** C9. Whenever the mode is [playing] in a reachable state, the brick
    array holds exactly 40 bricks, lying where [initGame] put them, and at
    least one of them is active; so a tick that ends in [win] got there by
    deactivating the last active brick in that very tick. *)
Theorem playing_has_full_grid (g : Game) :
  reachable g -> state g = playing ->
  length (bricks g) = 40%nat
  /\ map rect_of (bricks g) = map rect_of brickGrid
  /\ (1 <= activeCount (bricks g))%nat
  /\ (forall dt rnd, state (update dt rnd g) = win ->
        activeCount (bricks g) = 1%nat
        /\ activeCount (bricks (update dt rnd g)) = 0%nat).
Proof.
  intros H Hp. pose proof (reachable_Inv g H) as I.
  assert (Hg : gridShaped (bricks g)) by (apply (inv_grid g I); congruence).
  destruct (inv_playing g I Hp) as [_ Hnc].
  assert (Hac : (1 <= activeCount (bricks g))%nat).
  { destruct (activeCount (bricks g)) eqn:E; [| lia].
    apply allCleared_activeCount in E. congruence. }
  split.
  { rewrite <- (length_map rect_of), Hg, length_map. reflexivity. }
  split; [exact Hg |]. split; [exact Hac |].
  intros dt rnd Hwin.
  pose proof (Inv_update dt rnd g I) as I'.
  pose proof (inv_win _ I' Hwin) as A.
  apply allCleared_activeCount in A. split; [| exact A].
  rewrite (update_playing dt rnd g Hp) in A.
  destruct (winCheck_frame (outOfBounds rnd (afterBricks (integrate dt g))))
    as (_ & _ & _ & _ & Hb3 & _).
  destruct (outOfBounds_frame rnd (afterBricks (integrate dt g))) as (_ & Hb2 & _).
  rewrite Hb3, Hb2 in A.
  destruct (afterBricks_outcome (integrate dt g))
    as [(_ & _ & Hb & _) | (pre & k & post & Hs & _ & Hh & _ & _ & Hb)].
  - rewrite Hb in A. change (bricks (integrate dt g)) with (bricks g) in A. lia.
  - change (bricks (integrate dt g)) with (bricks g) in Hs.
    rewrite Hs. rewrite (activeCount_hit _ pre post k Hh). rewrite <- Hb, A.
    reflexivity.
Qed.

Lemma playing_has_full_grid_witness :
  let g := handle 0.25 (EvFrame MAX_DT)
             (handle 0.25 (EvPointerMove 300 500 (DOMRect.mk 0 0 360 640))
                (handle 0.25 (EvPointerDown 200 600 (DOMRect.mk 0 0 360 640))
                   (handle 0.75 (EvKeyDown KeyEnter) initial))) in
  state g = playing /\ length (bricks g) = 40%nat.
Proof.
  intros g. split; [reflexivity |].
  destruct (playing_has_full_grid g reachable_sample eq_refl) as [Hlen _].
  exact Hlen.
Defined.

(** ** Lives *)

Lemma resetBallOnPaddle_served (rnd : Q) (g : Game) :
  served rnd (paddle g) (ball g) (ball (resetBallOnPaddle rnd g)).
Proof.
  unfold served, resetBallOnPaddle. cbn -[Qgtb].
  repeat split; try reflexivity.
  unfold BALL_SPEED_X. destruct (Qgtb rnd 0.5); lra.
Qed.

Lemma update_lives_le (dt rnd : Q) (g : Game) :
  (lives (update dt rnd g) <= lives g)%Z.
Proof.
  unfold update. destruct (negb _); [lia |].
  unfold checkCollisions.
  destruct (winCheck_frame (outOfBounds rnd (afterBricks (integrate dt g))))
    as (_ & -> & _).
  destruct (afterBricks_frame (integrate dt g)) as (_ & Hl & _).
  change (lives (integrate dt g)) with (lives g) in Hl.
  destruct (outOfBounds_cases rnd (afterBricks (integrate dt g)))
    as [[_ ->] | [(_ & _ & ->) | (_ & _ & ->)]]; cbn; lia.
Qed.

Lemma ticks_lives_le (l : list (Q * Q)) (g : Game) :
  (lives (ticks l g) <= lives g)%Z.
Proof.
  revert g. induction l as [| [dt rnd] l IH]; intros g; cbn [ticks].
  - lia.
  - pose proof (IH (update dt rnd g)). pose proof (update_lives_le dt rnd g). lia.
Qed.

(** When the ball is out at the check, no brick was hit in this tick. *)
Lemma out_no_brick_hit (dt : Q) (g : Game) :
  Inv g -> state g = playing ->
  ballOut (ball (afterBricks (integrate dt g))) = true ->
  bricks (afterBricks (integrate dt g)) = bricks g
  /\ score (afterBricks (integrate dt g)) = score g.
Proof.
  intros I Hp Hout.
  assert (Hg : gridShaped (bricks g)) by (apply (inv_grid g I); congruence).
  destruct (afterBricks_outcome (integrate dt g))
    as [(_ & Hs & Hb & _) | (pre & k & post & Hs & _ & Hh & Hball & _ & _)].
  - split; assumption.
  - exfalso. change (bricks (integrate dt g)) with (bricks g) in Hs.
    assert (Hin : In k (bricks g)) by (rewrite Hs; apply in_elt).
    assert (Hr : 0 <= Ball.r (ball (paddleStage (wallStage (integrate dt g))))).
    { cbn [paddleStage wallStage ball set_ball].
      rewrite paddleCollision_r, wallCollisions_r.
      change (Ball.r (ball (integrate dt g))) with (Ball.r (ball g)).
      rewrite (inv_ball_r g I). by_computation. }
    pose proof (brick_hit_not_out _ (bricks g) k Hr Hg Hin Hh) as Hn.
    rewrite <- Hball in Hn. congruence.
Qed.

(** C4. Over any run of ticks [lives] never increases, and a tick outside
    play changes nothing.  In a tick during play, [lives] goes down by
    exactly one when, at the out-of-bounds check, the ball's top edge
    [y - r] exceeds [GAME_H], and stays as it is otherwise.  When the
    decrement reaches zero the mode becomes [lose] and the ball is left
    where it was; otherwise play goes on and the ball is served from the
    paddle: centered on it, just above it, [vy = -260] and [vx = 180] or
    [-180] according to the random number. *)
Theorem lives_lost_only_at_bottom (g : Game) :
  reachable g ->
  (forall l, (lives (ticks l g) <= lives g)%Z)
  /\ (forall dt rnd, state g <> playing -> update dt rnd g = g)
  /\ (forall dt rnd, state g = playing ->
        let g1 := afterBricks (integrate dt g) in
        let g' := update dt rnd g in
        (ballOut (ball g1) = false -> lives g' = lives g /\ ball g' = ball g1)
        /\ (ballOut (ball g1) = true ->
            lives g' = (lives g - 1)%Z
            /\ (lives g' = 0%Z -> state g' = lose /\ ball g' = ball g1)
            /\ (lives g' <> 0%Z ->
                state g' = playing /\ served rnd (paddle g') (ball g1) (ball g')))).
Proof.
  intros H. pose proof (reachable_Inv g H) as I.
  split; [intros l; apply ticks_lives_le |].
  split; [intros dt rnd Hn; apply update_idle; exact Hn |].
  intros dt rnd Hp g1 g'.
  destruct (inv_playing g I Hp) as [Hl Hnc].
  destruct (afterBricks_frame (integrate dt g)) as (Hs1 & Hl1 & Hp1 & _).
  fold g1 in Hs1, Hl1, Hp1.
  change (state (integrate dt g)) with (state g) in Hs1.
  change (lives (integrate dt g)) with (lives g) in Hl1.
  assert (Hg' : g' = winCheck (outOfBounds rnd g1)) by apply (update_playing dt rnd g Hp).
  destruct (winCheck_frame (outOfBounds rnd g1)) as (_ & Hl3 & Hp3 & Hb3 & _).
  rewrite <- Hg' in Hl3, Hp3, Hb3.
  split.
  - intros Hout.
    destruct (outOfBounds_cases rnd g1) as [[_ E] | [(C & _) | (C & _)]];
      try congruence.
    rewrite E in Hl3, Hb3. split; congruence.
  - intros Hout.
    destruct (out_no_brick_hit dt g I Hp Hout) as [Hbr _]. fold g1 in Hbr.
    assert (Hkeep : winCheck (outOfBounds rnd g1) = outOfBounds rnd g1).
    { destruct (winCheck_cases (outOfBounds rnd g1)) as [[A _] | [_ E]]; [| exact E].
      destruct (outOfBounds_frame rnd g1) as (_ & Hb2 & _).
      rewrite Hb2, Hbr in A. congruence. }
    rewrite Hkeep in Hg'.
    destruct (outOfBounds_cases rnd g1) as [[C _] | [(_ & L & E) | (_ & L & E)]];
      try congruence; rewrite E in Hg'; rewrite Hl1 in L.
    + assert (Hlv : lives g' = (lives g - 1)%Z) by (rewrite Hg'; cbn; congruence).
      split; [exact Hlv |]. split.
      * intros _. rewrite Hg'. split; reflexivity.
      * intros Hnz. lia.
    + assert (Hlv : lives g' = (lives g - 1)%Z) by (rewrite Hg'; cbn; congruence).
      split; [exact Hlv |]. split.
      * intros Hz. lia.
      * intros _. rewrite Hg'. split; [cbn; congruence |].
        apply (resetBallOnPaddle_served rnd (set_lives (lives g1 - 1)%Z g1)).
Qed.

Lemma lives_lost_only_at_bottom_witness :
  let g := handle 0.25 (EvFrame MAX_DT)
             (handle 0.25 (EvPointerMove 300 500 (DOMRect.mk 0 0 360 640))
                (handle 0.25 (EvPointerDown 200 600 (DOMRect.mk 0 0 360 640))
                   (handle 0.75 (EvKeyDown KeyEnter) initial))) in
  state g = playing
  /\ ballOut (ball (afterBricks (integrate MAX_DT g))) = false
  /\ lives (update MAX_DT 0.25 g) = lives g.
Proof.
  intros g.
  assert (Hp : state g = playing) by reflexivity.
  assert (Hout : ballOut (ball (afterBricks (integrate MAX_DT g))) = false)
    by (vm_compute; reflexivity).
  split; [exact Hp |]. split; [exact Hout |].
  destruct (lives_lost_only_at_bottom g reachable_sample) as (_ & _ & Htick).
  destruct (Htick MAX_DT 0.25 Hp) as [Hin _].
  destruct (Hin Hout) as [Hl _]. exact Hl.
Defined.

(** ** Bricks and score *)

Lemma brickGrid_row_major (row col : nat) :
  (row < rows)%nat -> (col < cols)%nat ->
  nth_error brickGrid (row * cols + col) = Some (newBrick row col).
Proof.
  unfold rows, cols. intros Hr Hc.
  destruct row as [| [| [| [| [| row]]]]]; try lia;
    destruct col as [| [| [| [| [| [| [| [| col]]]]]]]]; try lia;
    reflexivity.
Qed.

(** What one tick of play does to the bricks and the score. *)
Lemma update_bricks_score (dt rnd : Q) (g : Game) :
  state g = playing ->
  bricks (update dt rnd g) = bricks (afterBricks (integrate dt g))
  /\ score (update dt rnd g) = score (afterBricks (integrate dt g)).
Proof.
  intros Hp. rewrite (update_playing dt rnd g Hp).
  destruct (winCheck_frame (outOfBounds rnd (afterBricks (integrate dt g))))
    as (-> & _ & _ & _ & -> & _).
  destruct (outOfBounds_frame rnd (afterBricks (integrate dt g))) as (-> & -> & _).
  split; reflexivity.
Qed.

Lemma update_score_step (dt rnd : Q) (g : Game) :
  score (update dt rnd g) = score g
  \/ score (update dt rnd g) = (score g + 10)%Z.
Proof.
  destruct (Mode_eqb (state g) playing) eqn:M.
  - assert (Hp : state g = playing)
      by (destruct (state g); try discriminate; reflexivity).
    destruct (update_bricks_score dt rnd g Hp) as [_ ->].
    apply (afterBricks_score (integrate dt g)).
  - left. rewrite update_idle; [reflexivity |].
    intros E. rewrite E in M. discriminate.
Qed.

Lemma ticks_score (l : list (Q * Q)) (g : Game) :
  exists n : nat,
    (n <= length l)%nat /\ score (ticks l g) = (score g + 10 * Z.of_nat n)%Z.
Proof.
  revert g. induction l as [| [dt rnd] l IH]; intros g; cbn [ticks length].
  - exists O. split; [lia | cbn; lia].
  - destruct (IH (update dt rnd g)) as (n & Hn & ->).
    destruct (update_score_step dt rnd g) as [-> | ->].
    + exists n. split; lia.
    + exists (S n). split; lia.
Qed.

(** C5.  The grid is generated row by row, left to right within a row, and
    in play the brick array keeps that layout.  In a tick during play the
    brick loop goes through the array in that order: either no active brick
    is hit by the ball and neither the bricks nor the score change, or the
    first active brick the collision function reports as hit is
    deactivated, the score goes up by exactly 10, and every other brick
    (before and after it) is left as it was, so exactly one brick is
    destroyed.  Over any run of ticks the score is the initial score plus
    10 times a number of ticks not larger than the length of the run. *)
Theorem brick_scan_first_hit (g : Game) :
  (forall row col, (row < rows)%nat -> (col < cols)%nat ->
     nth_error brickGrid (row * cols + col) = Some (newBrick row col))
  /\ (reachable g -> state g <> menu ->
      map rect_of (bricks g) = map rect_of brickGrid)
  /\ (forall dt rnd, state g = playing ->
        let b := ball (paddleStage (wallStage (integrate dt g))) in
        let g' := update dt rnd g in
        (Forall (fun k => brickHit b k = false) (bricks g)
         /\ bricks g' = bricks g /\ score g' = score g)
        \/ (exists pre k post,
              bricks g = pre ++ k :: post
              /\ Forall (fun k' => brickHit b k' = false) pre
              /\ brickHit b k = true
              /\ bricks g' = pre ++ Brick_set_active false k :: post
              /\ score g' = (score g + 10)%Z
              /\ activeCount (bricks g) = S (activeCount (bricks g'))))
  /\ (forall l, exists n : nat,
        (n <= length l)%nat /\ score (ticks l g) = (score g + 10 * Z.of_nat n)%Z).
Proof.
  split; [exact brickGrid_row_major |].
  split.
  { intros H Hm. apply (inv_grid g (reachable_Inv g H) Hm). }
  split; [| intros l; apply ticks_score].
  intros dt rnd Hp b g'.
  destruct (update_bricks_score dt rnd g Hp) as [Hb Hs]. fold g' in Hb, Hs.
  pose proof (afterBricks_outcome (integrate dt g)) as Hout.
  cbv zeta in Hout. fold b in Hout.
  change (bricks (integrate dt g)) with (bricks g) in Hout.
  change (score (integrate dt g)) with (score g) in Hout.
  clearbody b g'.
  destruct Hout
    as [(_ & Hs1 & Hb1 & Hall) | (pre & k & post & Hsp & Hpre & Hh & _ & Hs1 & Hb1)].
  - left. split; [exact Hall |].
    split; [rewrite Hb; exact Hb1 | rewrite Hs; exact Hs1].
  - right. exists pre, k, post.
    split; [exact Hsp |]. split; [exact Hpre |]. split; [exact Hh |].
    split; [rewrite Hb; exact Hb1 |]. split; [rewrite Hs; exact Hs1 |].
    rewrite Hb, Hb1, Hsp. apply (activeCount_hit b pre post k Hh).
Qed.

Lemma brick_scan_first_hit_witness :
  let g := handle 0.25 (EvFrame MAX_DT)
             (handle 0.25 (EvPointerMove 300 500 (DOMRect.mk 0 0 360 640))
                (handle 0.25 (EvPointerDown 200 600 (DOMRect.mk 0 0 360 640))
                   (handle 0.75 (EvKeyDown KeyEnter) initial))) in
  nth_error brickGrid (2 * cols + 3) = Some (newBrick 2 3)
  /\ map rect_of (bricks g) = map rect_of brickGrid.
Proof.
  intros g.
  destruct (brick_scan_first_hit g) as (Hgrid & Hshape & _).
  split.
  - apply (Hgrid 2%nat 3%nat); unfold rows, cols; lia.
  - assert (Hp : state g = playing) by reflexivity.
    apply Hshape; [exact reachable_sample | rewrite Hp; discriminate].
Defined.

(** The out-of-bounds handling when a life remains. *)
Lemma outOfBounds_respawn (rnd : Q) (g1 : Game) :
  ballOut (ball g1) = true -> (0 < lives g1 - 1)%Z ->
  outOfBounds rnd g1 = resetBallOnPaddle rnd (set_lives (lives g1 - 1)%Z g1).
Proof.
  intros Hout Hl.
  destruct (outOfBounds_cases rnd g1) as [[C _] | [(_ & L & _) | (_ & _ & E)]];
    [congruence | lia | exact E].
Qed.

Lemma respawn_ball (rnd : Q) (g1 : Game) :
  let g2 := resetBallOnPaddle rnd (set_lives (lives g1 - 1)%Z g1) in
  Ball.x (ball g2) == Paddle.x (paddle g1) + Paddle.w (paddle g1) / 2
  /\ Ball.y (ball g2) == Paddle.y (paddle g1) - Ball.r (ball g1) - 1
  /\ Ball.vy (ball g2) == - (260)
  /\ (Ball.vx (ball g2) == 180 \/ Ball.vx (ball g2) == - (180))
  /\ Ball.r (ball g2) = Ball.r (ball g1).
Proof.
  intros g2.
  destruct (resetBallOnPaddle_served rnd (set_lives (lives g1 - 1)%Z g1))
    as (Hx & Hy & Hvy & Hvx & Hr).
  fold g2 in Hx, Hy, Hvy, Hvx, Hr.
  split; [exact Hx |]. split; [exact Hy |]. split; [exact Hvy |].
  split; [| exact Hr].
  destruct (Qgtb rnd 0.5); [left | right]; exact Hvx.
Qed.

(** C10.  In a tick during play in which the ball is out at the check and
    a life remains after the decrement, the out-of-bounds handling takes a
    life and serves the ball (horizontal center of the paddle,
    [y = paddle.y - r - 1], [vy = -260], [vx = 180] or [-180], same
    radius) and writes nothing else: score, bricks, paddle, input and mode
    are those it found, and the tick ends with that ball and with the
    score, bricks and paddle the brick loop left. *)
Theorem respawn_only_moves_ball (dt rnd : Q) (g : Game) :
  state g = playing ->
  let g1 := afterBricks (integrate dt g) in
  ballOut (ball g1) = true -> (0 < lives g1 - 1)%Z ->
  let g2 := outOfBounds rnd g1 in
  let g' := update dt rnd g in
  (Ball.x (ball g2) == Paddle.x (paddle g1) + Paddle.w (paddle g1) / 2
   /\ Ball.y (ball g2) == Paddle.y (paddle g1) - Ball.r (ball g1) - 1
   /\ Ball.vy (ball g2) == - (260)
   /\ (Ball.vx (ball g2) == 180 \/ Ball.vx (ball g2) == - (180))
   /\ Ball.r (ball g2) = Ball.r (ball g1))
  /\ lives g2 = (lives g1 - 1)%Z
  /\ (score g2 = score g1 /\ bricks g2 = bricks g1 /\ paddle g2 = paddle g1
      /\ input g2 = input g1 /\ state g2 = state g1)
  /\ (ball g' = ball g2 /\ score g' = score g1 /\ bricks g' = bricks g1
      /\ paddle g' = paddle g1).
Proof.
  intros Hp g1 Hout Hl g2 g'.
  assert (Hg' : g' = winCheck g2) by apply (update_playing dt rnd g Hp).
  clearbody g1.
  assert (E : g2 = resetBallOnPaddle rnd (set_lives (lives g1 - 1)%Z g1))
    by apply (outOfBounds_respawn rnd g1 Hout Hl).
  destruct (winCheck_frame g2) as (Hs3 & _ & Hp3 & Hb3 & Hk3 & _).
  rewrite <- Hg' in Hs3, Hp3, Hb3, Hk3.
  clearbody g2 g'. subst g2.
  split; [apply (respawn_ball rnd g1) |].
  split; [reflexivity |].
  split; [repeat split |].
  rewrite Hb3, Hs3, Hk3, Hp3. repeat split.
Qed.

(** ** The paddle bounce *)

Lemma walls_inside (b : Ball.t) :
  Ball.r b < Ball.x b -> Ball.x b + Ball.r b < GAME_W -> Ball.r b < Ball.y b ->
  wallCollisions b = b.
Proof.
  intros H1 H2 H3. unfold wallCollisions.
  assert (E1 : Qleb (Ball.x b - Ball.r b) 0 = false) by (apply Qleb_false; lra).
  rewrite E1.
  assert (E2 : Qgeb (Ball.x b + Ball.r b) GAME_W = false)
    by (unfold Qgeb; apply Qleb_false; lra).
  rewrite E2.
  assert (E3 : Qleb (Ball.y b - Ball.r b) 0 = false) by (apply Qleb_false; lra).
  rewrite E3. reflexivity.
Qed.

(** The generic reflection keeps the magnitude of [vy]. *)
Lemma reflect_abs_vy (b : Ball.t) (rc : Rect.t) :
  overlaps b rc ->
  Qabs (Ball.vy (snd (reflectBallFromRect b rc))) == Qabs (Ball.vy b).
Proof.
  intros Ho.
  destruct (reflect_cases b rc Ho) as [[_ Hp] | [_ [e Hb]]].
  - destruct (nearestEdge b rc); cbn in Hp.
    + destruct Hp as (_ & _ & _ & ->). reflexivity.
    + destruct Hp as (_ & _ & _ & ->). reflexivity.
    + destruct Hp as (_ & Hv & _).
      abs_cases (Ball.vy (snd (reflectBallFromRect b rc)));
        abs_cases (Ball.vy b); lra.
    + destruct Hp as (_ & Hv & _).
      abs_cases (Ball.vy (snd (reflectBallFromRect b rc)));
        abs_cases (Ball.vy b); lra.
  - destruct e; cbn in Hb.
    + destruct Hb as (_ & _ & _ & _ & ->). reflexivity.
    + destruct Hb as (_ & _ & _ & _ & ->). reflexivity.
    + destruct Hb as (_ & _ & Hv & _).
      abs_cases (Ball.vy (snd (reflectBallFromRect b rc)));
        abs_cases (Ball.vy b); lra.
    + destruct Hb as (_ & _ & Hv & _).
      abs_cases (Ball.vy (snd (reflectBallFromRect b rc)));
        abs_cases (Ball.vy b); lra.
Qed.

(** Where the generic reflection puts the ball does not depend on [vx]. *)
Lemma reflect_vx_irrelevant (v : Q) (b : Ball.t) (rc : Rect.t) :
  fst (reflectBallFromRect (Ball_set_vx v b) rc) = fst (reflectBallFromRect b rc)
  /\ Ball.x (snd (reflectBallFromRect (Ball_set_vx v b) rc))
     = Ball.x (snd (reflectBallFromRect b rc)).
Proof.
  destruct b as [x y vx vy r].
  unfold reflectBallFromRect, dist2, offX, offY, closestX, closestY, Ball_set_vx.
  cbn [Ball.x Ball.y Ball.vx Ball.vy Ball.r].
  repeat match goal with
  | |- context [if ?c then _ else _] => destruct c
  end; split; reflexivity.
Qed.

Lemma paddleCollision_hit (p : Paddle.t) (b : Ball.t) :
  fst (reflectBallFromRect b (rect_of p)) = true ->
  let b1 := snd (reflectBallFromRect b (rect_of p)) in
  paddleCollision p b
  = Ball_set_vx
      (clamp ((Ball.x b1 - Paddle.x p) / Paddle.w p - 0.5) (- 0.5) 0.5 * 420)
      (Ball_set_vy (- Qabs (Ball.vy b1)) b1).
Proof.
  intros H b1. unfold paddleCollision. subst b1.
  destruct (reflectBallFromRect b (rect_of p)) as [hitp b1].
  cbn in H. subst hitp. reflexivity.
Qed.

(** The state of Scenario A after the paddle check. *)
Section ScenarioA.
Variables (dt : Q) (g : Game).
Hypothesis Hdt : 0 <= dt <= MAX_DT.
Hypothesis Hball : ball g = Ball.mk 180 600 0 260 6.
Hypothesis Hpaddle : paddle g = Paddle.mk 150 600 60 10 150.

Lemma scenario_ball :
  Ball.x (ball (integrate dt g)) == 180
  /\ 600 <= Ball.y (ball (integrate dt g)) <= 609
  /\ Ball.vx (ball (integrate dt g)) = 0
  /\ Ball.vy (ball (integrate dt g)) = 260
  /\ Ball.r (ball (integrate dt g)) = 6.
Proof.
  pose proof Hdt as Hd.
  assert (Hm : MAX_DT == 1 # 30) by reflexivity. rewrite Hm in Hd.
  unfold integrate. cbn [ball set_ball set_paddle paddle].
  rewrite Hball. cbn [Ball.x Ball.y Ball.vx Ball.vy Ball.r Ball_set_x Ball_set_y].
  repeat split; first [reflexivity | lra].
Qed.

Lemma scenario_paddle :
  Paddle.x (paddle (integrate dt g)) == 150
  /\ Paddle.y (paddle (integrate dt g)) = 600
  /\ Paddle.w (paddle (integrate dt g)) = 60
  /\ Paddle.h (paddle (integrate dt g)) = 10.
Proof.
  unfold integrate. cbn [ball set_ball set_paddle paddle].
  rewrite Hpaddle.
  cbn [Paddle.x Paddle.y Paddle.w Paddle.h Paddle.targetX Paddle_set_x].
  repeat split; first [reflexivity | lra].
Qed.

(** The ball is away from the walls. *)
Lemma scenario_walls :
  ball (wallStage (integrate dt g)) = ball (integrate dt g)
  /\ paddle (wallStage (integrate dt g)) = paddle (integrate dt g).
Proof.
  split; [| reflexivity].
  unfold wallStage. cbn [ball set_ball].
  destruct scenario_ball as (Hx & Hy & _ & _ & Hr).
  apply walls_inside; rewrite Hr; unfold GAME_W; lra.
Qed.

(** Its center lies on the paddle: the degenerate case. *)
Lemma scenario_centered :
  centered (ball (integrate dt g)) (rect_of (paddle (integrate dt g)))
  /\ overlaps (ball (integrate dt g)) (rect_of (paddle (integrate dt g))).
Proof.
  destruct scenario_ball as (Hx & Hy & _ & _ & Hr).
  destruct scenario_paddle as (Hpx & Hpy & Hpw & Hph).
  set (b0 := ball (integrate dt g)) in *.
  set (p0 := paddle (integrate dt g)) in *.
  assert (HX : offX b0 (rect_of p0) == 0).
  { unfold offX, closestX. cbn [rect_of Paddle_Rectangular Rect.x Rect.w].
    rewrite Hpw. rewrite clamp_inside; lra. }
  assert (HY : offY b0 (rect_of p0) == 0).
  { unfold offY, closestY. cbn [rect_of Paddle_Rectangular Rect.y Rect.h].
    rewrite Hpy, Hph. rewrite clamp_inside; lra. }
  split; [split; assumption |].
  unfold overlaps, dist2. rewrite HX, HY, Hr. lra.
Qed.

(** The nearest edge is the top or the bottom one, never a side. *)
Lemma scenario_edge :
  nearestEdge (ball (integrate dt g)) (rect_of (paddle (integrate dt g))) = EdgeTop
  \/ nearestEdge (ball (integrate dt g)) (rect_of (paddle (integrate dt g)))
     = EdgeBottom.
Proof.
  destruct scenario_ball as (Hx & Hy & _ & _ & Hr).
  destruct scenario_paddle as (Hpx & Hpy & Hpw & Hph).
  set (b0 := ball (integrate dt g)) in *.
  set (p0 := paddle (integrate dt g)) in *.
  clearbody b0 p0.
  rewrite nearestEdge_firstMin. unfold firstMin, edgeDist.
  cbn [rect_of Paddle_Rectangular Rect.x Rect.y Rect.w Rect.h].
  rewrite Hpy, Hpw, Hph.
  abs_cases (Ball.x b0 - Paddle.x p0);
    abs_cases (Paddle.x p0 + 60 - Ball.x b0);
    abs_cases (Ball.y b0 - 600);
    abs_cases (600 + 10 - Ball.y b0);
    try (exfalso; lra);
    repeat match goal with
    | |- context [Qltb ?x ?y] =>
        let T := fresh "T" in destruct (Qltb x y) eqn:T
    end; tests_to_props; auto; exfalso; lra.
Qed.
End ScenarioA.

Lemma Forall_no_hit_outcome (g : Game) :
  Forall (fun k => brickHit (ball g) k = false) (bricks g) ->
  ball (brickStage g) = ball g.
Proof.
  intros Hall.
  destruct (brickStage_outcome g)
    as [(Hb & _) | (pre & k & post & Hs & _ & Hh & _)]; [exact Hb |].
  exfalso. rewrite Forall_forall in Hall.
  assert (Hin : In k (bricks g)) by (rewrite Hs; apply in_elt).
  rewrite (Hall k Hin) in Hh. discriminate.
Qed.

Lemma update_ball_in_play (dt rnd : Q) (g : Game) :
  state g = playing ->
  ballOut (ball (afterBricks (integrate dt g))) = false ->
  ball (update dt rnd g) = ball (afterBricks (integrate dt g)).
Proof.
  intros Hp Hout. rewrite (update_playing dt rnd g Hp).
  destruct (winCheck_frame (outOfBounds rnd (afterBricks (integrate dt g))))
    as (_ & _ & _ & -> & _).
  destruct (outOfBounds_cases rnd (afterBricks (integrate dt g)))
    as [[_ ->] | [(C & _) | (C & _)]]; [reflexivity | congruence | congruence].
Qed.

Lemma scenario_outcome (dt rnd : Q) (g : Game) :
  0 <= dt <= MAX_DT -> state g = playing ->
  ball g = Ball.mk 180 600 0 260 6 ->
  paddle g = Paddle.mk 150 600 60 10 150 ->
  gridShaped (bricks g) ->
  fst (reflectBallFromRect (ball (wallStage (integrate dt g)))
         (rect_of (paddle (wallStage (integrate dt g))))) = true
  /\ Ball.vy (ball (update dt rnd g)) == - (260)
  /\ Ball.vx (ball (update dt rnd g)) == 0.
Proof.
  intros Hdt Hp Hball Hpaddle Hgrid.
  destruct (scenario_walls dt g Hdt Hball) as [Hb0 Hp0].
  destruct (scenario_ball dt g Hdt Hball) as (Hx & Hy & Hvx & Hvy & Hr).
  destruct (scenario_paddle dt g Hpaddle) as (Hpx & Hpy & Hpw & Hph).
  destruct (scenario_centered dt g Hdt Hball Hpaddle) as [Hc Ho].
  pose proof (scenario_edge dt g Hdt Hball Hpaddle) as He.
  pose proof (reflect_centered _ _ Ho Hc) as Hpush.
  pose proof (reflect_abs_vy _ _ Ho) as Habs.
  pose proof (reflect_r (ball (integrate dt g)) (rect_of (paddle (integrate dt g))))
    as Hr1.
  pose proof (reflect_hit _ _ Ho) as Hhit.
  pose proof (paddleCollision_hit _ _ Hhit) as Hpc. cbv zeta in Hpc.
  rewrite Hb0, Hp0.
  set (b0 := ball (integrate dt g)) in *.
  set (p0 := paddle (integrate dt g)) in *.
  set (b1 := snd (reflectBallFromRect b0 (rect_of p0))) in *.
  set (b' := paddleCollision p0 b0) in *.
  assert (Hb' : ball (paddleStage (wallStage (integrate dt g))) = b').
  { unfold paddleStage. cbn [ball set_ball paddle].
    change (paddle (wallStage (integrate dt g))) with p0.
    rewrite Hb0. reflexivity. }
  assert (Hr' : Ball.r b' = 6).
  { unfold b'. rewrite paddleCollision_r. exact Hr. }
  clearbody b' b1 b0 p0.
  assert (Hb1 : Ball.x b1 = Ball.x b0 /\ Ball.vx b1 = Ball.vx b0
                /\ (Ball.y b1 == 593.5 \/ Ball.y b1 == 616.5)).
  { destruct He as [E | E]; rewrite E in Hpush;
      cbn [pushedOut rect_of Paddle_Rectangular Rect.x Rect.y Rect.w Rect.h] in Hpush;
      rewrite Hpy, ?Hph, Hr in Hpush;
      destruct Hpush as (Hy1 & _ & Hx1 & Hv1);
      (split; [exact Hx1 |]); (split; [exact Hv1 |]); [left | right]; lra. }
  destruct Hb1 as (Hx1 & Hvx1 & Hy1).
  assert (Hvy' : Ball.vy b' == - (260)).
  { rewrite Hpc. cbn [Ball.vy Ball_set_vx Ball_set_vy]. rewrite Habs, Hvy.
    reflexivity. }
  assert (Hvx' : Ball.vx b' == 0).
  { rewrite Hpc. cbn [Ball.vx Ball_set_vx Ball_set_vy].
    rewrite Hx1, Hpw. unfold Qdiv. change (/ 60) with (1 # 60).
    rewrite clamp_inside; lra. }
  assert (Hy' : Ball.y b' = Ball.y b1) by (rewrite Hpc; reflexivity).
  assert (Hafter : ball (afterBricks (integrate dt g)) = b').
  { unfold afterBricks. rewrite Forall_no_hit_outcome; [exact Hb' |].
    rewrite Hb'.
    change (bricks (paddleStage (wallStage (integrate dt g)))) with (bricks g).
    apply below_grid_no_hit; [exact Hgrid | rewrite Hr'; lra |].
    rewrite Hr', Hy'. destruct Hy1; lra. }
  assert (Hout : ballOut (ball (afterBricks (integrate dt g))) = false).
  { rewrite Hafter. unfold ballOut, Qgtb. apply Qltb_false.
    rewrite Hr', Hy'. unfold GAME_H. destruct Hy1; lra. }
  split; [exact Hhit |].
  rewrite (update_ball_in_play dt rnd g Hp Hout), Hafter.
  split; assumption.
Qed.

(** C6.  Whenever the collision function reports a hit against the
    paddle, the paddle check leaves [vy] pointing up, [vy = -|vy|] for the
    [vy] the ball came in with, and sets
    [vx = clamp((ball.x - paddle.x) / paddle.w - 0.5, -0.5, 0.5) * 420]
    with [ball.x] as the generic reflection left it; this [vx] lies in
    [-210, 210] and does not depend on the [vx] the ball had.  In
    particular (Scenario A), with the ball at (180, 600) moving at
    (0, 260), radius 6, the paddle at rest on x = 150..210, y = 600..610
    and the bricks on their grid, one tick of any length up to [MAX_DT]
    reports a paddle hit and ends with [vy = -260] (upward) and [vx = 0]. *)
Theorem paddle_hit_angle_control :
  (forall g : Game,
     fst (reflectBallFromRect (ball g) (rect_of (paddle g))) = true ->
     let b1 := snd (reflectBallFromRect (ball g) (rect_of (paddle g))) in
     let b' := ball (paddleStage g) in
     Ball.vy b' == - Qabs (Ball.vy (ball g))
     /\ Ball.vx b'
        == clamp ((Ball.x b1 - Paddle.x (paddle g)) / Paddle.w (paddle g) - 0.5)
             (- 0.5) 0.5 * 420
     /\ - (210) <= Ball.vx b' <= 210
     /\ Ball.x b' = Ball.x b1 /\ Ball.y b' = Ball.y b1
     /\ (forall v,
           Ball.vx (ball (paddleStage (set_ball (Ball_set_vx v (ball g)) g)))
           = Ball.vx b'))
  /\ (forall dt rnd g,
        0 <= dt <= MAX_DT -> state g = playing ->
        ball g = Ball.mk 180 600 0 260 6 ->
        paddle g = Paddle.mk 150 600 60 10 150 ->
        gridShaped (bricks g) ->
        fst (reflectBallFromRect (ball (wallStage (integrate dt g)))
               (rect_of (paddle (wallStage (integrate dt g))))) = true
        /\ Ball.vy (ball (update dt rnd g)) == - (260)
        /\ Ball.vy (ball (update dt rnd g)) < 0
        /\ Ball.vx (ball (update dt rnd g)) == 0).
Proof.
  split.
  - intros g Hhit b1 b'.
    pose proof (paddleCollision_hit _ _ Hhit) as Hpc. cbv zeta in Hpc. fold b1 in Hpc.
    assert (Hb' : b' = paddleCollision (paddle g) (ball g)) by reflexivity.
    rewrite Hpc in Hb'.
    pose proof (reflect_abs_vy _ _ (reflect_hit_inv _ _ Hhit)) as Habs. fold b1 in Habs.
    clearbody b'. subst b'. cbn [Ball.x Ball.y Ball.vx Ball.vy Ball_set_vx Ball_set_vy].
    split; [rewrite Habs; reflexivity |].
    split; [reflexivity |].
    split.
    { pose proof (clamp_range
                    ((Ball.x b1 - Paddle.x (paddle g)) / Paddle.w (paddle g) - 0.5)
                    (- 0.5) 0.5) as Hc.
      assert (Hle : - 0.5 <= 0.5) by by_computation.
      specialize (Hc Hle). lra. }
    split; [reflexivity |]. split; [reflexivity |].
    intros v. unfold paddleStage. cbn [ball set_ball paddle].
    destruct (reflect_vx_irrelevant v (ball g) (rect_of (paddle g))) as [Hf Hx].
    rewrite Hhit in Hf.
    rewrite (paddleCollision_hit _ _ Hf). cbv zeta.
    cbn [Ball.vx Ball_set_vx]. rewrite Hx. reflexivity.
  - intros dt rnd g Hdt Hp Hball Hpaddle Hgrid.
    destruct (scenario_outcome dt rnd g Hdt Hp Hball Hpaddle Hgrid) as (H1 & H2 & H3).
    split; [exact H1 |]. split; [exact H2 |]. split; [lra | exact H3].
Qed.

Lemma paddle_hit_angle_control_witness :
  let g := mkGame playing 0 3 (Paddle.mk 150 600 60 10 150)
             (Ball.mk 180 600 0 260 6) brickGrid (Input.mk false 0 0) in
  0 <= MAX_DT <= MAX_DT
  /\ Ball.vy (ball (update MAX_DT 0.25 g)) < 0
  /\ Ball.vx (ball (update MAX_DT 0.25 g)) == 0.
Proof.
  intros g.
  assert (Hdt : 0 <= MAX_DT <= MAX_DT) by (split; by_computation).
  split; [exact Hdt |].
  destruct paddle_hit_angle_control as [_ Hscen].
  destruct (Hscen MAX_DT 0.25 g Hdt eq_refl eq_refl eq_refl eq_refl)
    as (_ & _ & Hvy & Hvx).
  split; [exact Hvy | exact Hvx].
Defined.

Lemma respawn_only_moves_ball_witness :
  let g := mkGame playing 20 3 (Paddle.mk 150 600 60 10 150)
             (Ball.mk 180 650 180 260 6) brickGrid (Input.mk false 0 0) in
  ballOut (ball (afterBricks (integrate MAX_DT g))) = true
  /\ lives (update MAX_DT 0.75 g) = 2%Z
  /\ score (update MAX_DT 0.75 g) = 20%Z
  /\ Ball.vx (ball (update MAX_DT 0.75 g)) == 180
  /\ paddle (update MAX_DT 0.75 g) = paddle (afterBricks (integrate MAX_DT g)).
Proof.
  intros g.
  assert (Hp : state g = playing) by reflexivity.
  assert (Hout : ballOut (ball (afterBricks (integrate MAX_DT g))) = true)
    by (vm_compute; reflexivity).
  assert (Hl : (0 < lives (afterBricks (integrate MAX_DT g)) - 1)%Z)
    by (vm_compute; reflexivity).
  destruct (respawn_only_moves_ball MAX_DT 0.75 g Hp Hout Hl)
    as (_ & _ & _ & (_ & _ & _ & Hpad)).
  split; [exact Hout |].
  split; [vm_compute; reflexivity |].
  split; [vm_compute; reflexivity |].
  split; [vm_compute; reflexivity | exact Hpad].
Defined.

(** ** The scenarios of the specification, by evaluation *)

(** Scenario C: with one life left, a ball crossing the bottom edge ends
    the round and is left where it is. *)
Example scenario_last_life :
  let g := mkGame playing 20 1 (Paddle.mk 150 600 60 10 150)
             (Ball.mk 180 650 180 260 6) brickGrid (Input.mk false 0 0) in
  let g' := update MAX_DT 0.75 g in
  state g' = lose /\ lives g' = 0%Z
  /\ Ball.x (ball g') == 186 /\ Ball.vy (ball g') == 260.
Proof. repeat split; by_computation. Qed.

(** Scenario D: a ball overlapping the left wall is put back at [x = r]
    with [vx] pointing into the playfield. *)
Example scenario_left_wall :
  let b := wallCollisions (Ball.mk 2 300 (- (50)) 10 6) in
  Ball.x b == 6 /\ Ball.vx b == 50 /\ Ball.y b == 300 /\ Ball.vy b == 10.
Proof. repeat split; by_computation. Qed.

(** Calling the collision function again on the corrected ball reports no
    hit. *)
Lemma reflect_idempotent (b : Ball.t) (rc : Rect.t) :
  wf_ball b -> wf_rect rc -> overlaps b rc ->
  fst (reflectBallFromRect (snd (reflectBallFromRect b rc)) rc) = false.
Proof.
  intros Hb Hrc Ho.
  pose proof (reflect_cases b rc Ho) as Hcases. cbv zeta in Hcases.
  pose proof (reflect_r b rc) as Hr.
  assert (Hplaced : exists e,
    match e with
    | EdgeLeft => Ball.x (snd (reflectBallFromRect b rc)) == Rect.x rc - Ball.r b - 0.5
    | EdgeRight =>
        Ball.x (snd (reflectBallFromRect b rc)) == Rect.x rc + Rect.w rc + Ball.r b + 0.5
    | EdgeTop => Ball.y (snd (reflectBallFromRect b rc)) == Rect.y rc - Ball.r b - 0.5
    | EdgeBottom =>
        Ball.y (snd (reflectBallFromRect b rc)) == Rect.y rc + Rect.h rc + Ball.r b + 0.5
    end).
  { destruct Hcases as [[_ Hp] | [_ [e Hbo]]].
    - exists (nearestEdge b rc). destruct (nearestEdge b rc); cbn in Hp; tauto.
    - exists e. apply (bounced_placed b rc e _ Hrc Hbo). }
  destruct Hplaced as [e He].
  rewrite reflect_miss; [reflexivity |].
  apply (placed_separated b rc e); assumption.
Qed.

(** * Further properties of the code *)

(** ** [clamp] *)

(** X1.  With [lo <= hi], [clamp] returns a value of [[lo, hi]]: [v] itself
    when it lies in the interval, [lo] when it is below and [hi] when it is
    above; clamping a clamped value changes nothing. *)
Theorem clamp_spec (v lo hi : Q) :
  lo <= hi ->
  lo <= clamp v lo hi <= hi
  /\ (lo <= v <= hi -> clamp v lo hi == v)
  /\ (v <= lo -> clamp v lo hi == lo)
  /\ (hi <= v -> clamp v lo hi == hi)
  /\ clamp (clamp v lo hi) lo hi == clamp v lo hi.
Proof.
  intros H.
  pose proof (clamp_range v lo hi H) as Hr.
  split; [exact Hr |].
  split; [intros [? ?]; apply clamp_inside; assumption |].
  split; [intros ?; apply clamp_below; assumption |].
  split; [intros ?; apply clamp_above; assumption |].
  apply clamp_inside; apply Hr.
Qed.

Lemma clamp_spec_witness :
  0 <= GAME_W - 60 /\ clamp (- (25)) 0 (GAME_W - 60) == 0.
Proof.
  assert (H : 0 <= GAME_W - 60) by by_computation.
  split; [exact H |].
  destruct (clamp_spec (- (25)) 0 (GAME_W - 60) H) as (_ & _ & Hlo & _).
  apply Hlo. by_computation.
Defined.

(** X2.  With the bounds the wrong way round ([hi < lo]) [clamp] returns
    [lo], whatever the value. *)
Theorem clamp_inverted_bounds (v lo hi : Q) :
  hi < lo -> clamp v lo hi == lo.
Proof.
  intros H. unfold clamp. min_cases hi v; max_cases lo m; lra.
Qed.

Lemma clamp_inverted_bounds_witness : clamp 7 10 5 == 10.
Proof. apply clamp_inverted_bounds. by_computation. Defined.

(** ** Walls *)

(** X3.  For a ball whose diameter is less than the playfield width, after
    the wall check the ball lies between the side walls and below the top
    wall ([r <= x <= GAME_W - r], [r <= y]), its radius and the magnitudes
    of [vx] and [vy] are unchanged, [vx] points right if the left wall was
    touched and left if the right wall was, and [vy] points down if the top
    wall was touched. *)
Theorem walls_keep_ball_inside (b : Ball.t) :
  0 <= Ball.r b -> 2 * Ball.r b < GAME_W ->
  let b' := wallCollisions b in
  (Ball.r b <= Ball.x b' <= GAME_W - Ball.r b /\ Ball.r b <= Ball.y b')
  /\ Ball.r b' = Ball.r b
  /\ Qabs (Ball.vx b') == Qabs (Ball.vx b)
  /\ Qabs (Ball.vy b') == Qabs (Ball.vy b)
  /\ (Ball.x b - Ball.r b <= 0 -> 0 <= Ball.vx b')
  /\ (0 < Ball.x b - Ball.r b -> GAME_W <= Ball.x b + Ball.r b -> Ball.vx b' <= 0)
  /\ (Ball.y b - Ball.r b <= 0 -> 0 <= Ball.vy b').
Proof.
  intros Hr Hd b'. subst b'. unfold wallCollisions, GAME_W in *.
  destruct b as [x y vx vy r].
  unfold Ball_set_x, Ball_set_y, Ball_set_vx, Ball_set_vy.
  cbn [Ball.x Ball.y Ball.vx Ball.vy Ball.r] in *.
  destruct (Qleb (x - r) 0) eqn:T1; cbn [Ball.x Ball.y Ball.vx Ball.vy Ball.r];
    match goal with
    | |- context [Qgeb ?a ?c] => destruct (Qgeb a c) eqn:T2
    end;
    cbn [Ball.x Ball.y Ball.vx Ball.vy Ball.r];
    destruct (Qleb (y - r) 0) eqn:T3;
    cbn [Ball.x Ball.y Ball.vx Ball.vy Ball.r];
    tests_to_props;
    abs_cases vx; abs_cases vy;
    repeat match goal with
    | |- context [Qabs ?t] => abs_cases t
    end;
    repeat split; try reflexivity; try lra; intros; lra.
Qed.

Lemma walls_keep_ball_inside_witness :
  let b := Ball.mk 2 300 (- (50)) 10 6 in
  Ball.x (wallCollisions b) <= GAME_W - 6 /\ 0 <= Ball.vx (wallCollisions b).
Proof.
  intros b.
  assert (Hr : 0 <= Ball.r b) by by_computation.
  assert (Hd : 2 * Ball.r b < GAME_W) by by_computation.
  destruct (walls_keep_ball_inside b Hr Hd) as ((Hx & _) & _ & _ & _ & Hl & _).
  split; [apply Hx | apply Hl; by_computation].
Defined.

(** ** The collision function *)

Lemma reflect_abs_vx (b : Ball.t) (rc : Rect.t) :
  overlaps b rc ->
  Qabs (Ball.vx (snd (reflectBallFromRect b rc))) == Qabs (Ball.vx b).
Proof.
  intros Ho.
  destruct (reflect_cases b rc Ho) as [[_ Hp] | [_ [e Hb]]].
  - destruct (nearestEdge b rc); cbn in Hp.
    + destruct Hp as (_ & Hv & _).
      abs_cases (Ball.vx (snd (reflectBallFromRect b rc)));
        abs_cases (Ball.vx b); lra.
    + destruct Hp as (_ & Hv & _).
      abs_cases (Ball.vx (snd (reflectBallFromRect b rc)));
        abs_cases (Ball.vx b); lra.
    + destruct Hp as (_ & _ & _ & ->). reflexivity.
    + destruct Hp as (_ & _ & _ & ->). reflexivity.
  - destruct e; cbn in Hb.
    + destruct Hb as (_ & _ & Hv & _).
      abs_cases (Ball.vx (snd (reflectBallFromRect b rc)));
        abs_cases (Ball.vx b); lra.
    + destruct Hb as (_ & _ & Hv & _).
      abs_cases (Ball.vx (snd (reflectBallFromRect b rc)));
        abs_cases (Ball.vx b); lra.
    + destruct Hb as (_ & _ & _ & _ & ->). reflexivity.
    + destruct Hb as (_ & _ & _ & _ & ->). reflexivity.
Qed.

(** X4.  The collision function never changes the radius or the speed
    along either axis: whether it reports a hit or not, [|vx|] and [|vy|]
    are what they were. *)
Theorem reflect_keeps_speed (b : Ball.t) (rc : Rect.t) :
  let b' := snd (reflectBallFromRect b rc) in
  Ball.r b' = Ball.r b
  /\ Qabs (Ball.vx b') == Qabs (Ball.vx b)
  /\ Qabs (Ball.vy b') == Qabs (Ball.vy b).
Proof.
  intros b'. subst b'. split; [apply reflect_r |].
  destruct (fst (reflectBallFromRect b rc)) eqn:F.
  - apply reflect_hit_inv in F.
    split; [apply reflect_abs_vx | apply reflect_abs_vy]; exact F.
  - rewrite (reflect_miss_ball b rc F). split; reflexivity.
Qed.

(** X5.  The collision function reports a hit exactly when the ball
    overlaps the rectangle, and after a hit on a rectangle of non-negative
    extent a second call on the corrected ball reports none and leaves the
    ball as it is. *)
Theorem reflect_twice (b : Ball.t) (rc : Rect.t) :
  (fst (reflectBallFromRect b rc) = true <-> overlaps b rc)
  /\ (wf_ball b -> wf_rect rc -> overlaps b rc ->
      reflectBallFromRect (snd (reflectBallFromRect b rc)) rc
      = (false, snd (reflectBallFromRect b rc))).
Proof.
  split.
  - split; [apply reflect_hit_inv | apply reflect_hit].
  - intros Hb Hrc Ho.
    pose proof (reflect_idempotent b rc Hb Hrc Ho) as H.
    pose proof (reflect_miss_ball _ rc H) as Hs.
    destruct (reflectBallFromRect (snd (reflectBallFromRect b rc)) rc) as [f b2].
    cbn in H, Hs. subst. reflexivity.
Qed.

Lemma reflect_twice_witness :
  let b := Ball.mk 8 100 (- (180)) (- (260)) 6 in
  let rc := rect_of (newBrick 0 0) in
  overlaps b rc
  /\ fst (reflectBallFromRect (snd (reflectBallFromRect b rc)) rc) = false.
Proof.
  intros b rc.
  assert (Hb : wf_ball b) by by_computation.
  assert (Hrc : wf_rect rc) by by_computation.
  assert (Ho : overlaps b rc) by by_computation.
  split; [exact Ho |].
  destruct (reflect_twice b rc) as [_ H].
  rewrite (H Hb Hrc Ho). reflexivity.
Defined.

(** ** Pointer and keyboard events *)

Lemma Mode_eqb_eq (a b : Mode) : Mode_eqb a b = true <-> a = b.
Proof. destruct a, b; cbn; split; congruence. Qed.

Lemma is_over_playing (m : Mode) : is_over m = true -> m <> playing.
Proof. destruct m; cbn; congruence. Qed.

(** An input event either starts a new game or writes at most the input
    state and the paddle target. *)
Lemma input_event_cases (rnd : Q) (e : Event) (g : Game) :
  is_input e = true ->
  (is_over (state g) = true /\ is_start e = true
   /\ handle rnd e g = startNewGame rnd g)
  \/ ((is_over (state g) = false \/ is_start e = false)
      /\ exists t i,
           handle rnd e g
           = set_paddle (Paddle_set_targetX t (paddle g)) (set_input i g)
           /\ (state g <> playing -> t = Paddle.targetX (paddle g))).
Proof.
  intros He.
  assert (Hsame : forall i,
            set_input i g
            = set_paddle (Paddle_set_targetX (Paddle.targetX (paddle g)) (paddle g))
                (set_input i g)).
  { intros i. destruct g as [s sc lv [px py pw ph pt] b bs inp]. reflexivity. }
  assert (Hg : g = set_input (input g) g) by (destruct g; reflexivity).
  destruct e as [dt | cx cy rect | cx cy rect | | | key]; cbn in He;
    try discriminate; cbn [handle is_start].
  - unfold pointerdown. destruct (is_over (state g)) eqn:O.
    + left. repeat split.
    + right. split; [left; reflexivity |].
      destruct (Mode_eqb (state g) playing) eqn:M.
      * eexists _, _. split; [apply Hsame | reflexivity].
      * exists (Paddle.targetX (paddle g)), (input g).
        split; [rewrite <- Hsame; exact Hg | reflexivity].
  - right. split; [right; reflexivity |].
    unfold pointermove.
    destruct (Mode_eqb (state g) playing && Input.pointerActive (input g)) eqn:M.
    + apply andb_true_iff in M. destruct M as [M _]. apply Mode_eqb_eq in M.
      eexists _, _. split; [reflexivity | intros C; contradiction].
    + exists (Paddle.targetX (paddle g)), (input g).
      split; [rewrite <- Hsame; exact Hg | reflexivity].
  - right. split; [right; reflexivity |].
    eexists (Paddle.targetX (paddle g)), _. split; [apply Hsame | reflexivity].
  - right. split; [right; reflexivity |].
    eexists (Paddle.targetX (paddle g)), _. split; [apply Hsame | reflexivity].
  - unfold keydown. destruct (is_over (state g)) eqn:O.
    + destruct (Key_eqb key KeySpace || Key_eqb key KeyEnter) eqn:K.
      * left. repeat split.
      * right. split; [right; reflexivity |].
        exists (Paddle.targetX (paddle g)), (input g).
        split; [rewrite <- Hsame; exact Hg | reflexivity].
    + right. split; [left; reflexivity |].
      destruct (Mode_eqb (state g) playing) eqn:M.
      * apply Mode_eqb_eq in M.
        destruct key; cbn [Key_eqb];
          try (exists (Paddle.targetX (paddle g)), (input g);
               split; [rewrite <- Hsame; exact Hg | reflexivity]);
          eexists _, (input g);
          (split; [rewrite <- Hg; reflexivity | intros C; contradiction]).
      * exists (Paddle.targetX (paddle g)), (input g).
        split; [rewrite <- Hsame; exact Hg | reflexivity].
Qed.

(** X6.  A pointer or keyboard event that does not start a game (the game
    is being played, or the event is not a start trigger) never writes the
    mode, the score, the lives, the ball, the bricks or the paddle's
    position and size: it can only change the input state and the paddle
    target. *)
Theorem input_events_only_move_target (rnd : Q) (e : Event) (g : Game) :
  is_input e = true ->
  is_over (state g) = false \/ is_start e = false ->
  let g' := handle rnd e g in
  state g' = state g /\ score g' = score g /\ lives g' = lives g
  /\ ball g' = ball g /\ bricks g' = bricks g
  /\ Paddle.x (paddle g') = Paddle.x (paddle g)
  /\ Paddle.y (paddle g') = Paddle.y (paddle g)
  /\ Paddle.w (paddle g') = Paddle.w (paddle g)
  /\ Paddle.h (paddle g') = Paddle.h (paddle g).
Proof.
  intros He Hns g'. subst g'.
  destruct (input_event_cases rnd e g He) as [(O & S & _) | (_ & t & i & -> & _)].
  - destruct Hns; congruence.
  - repeat split.
Qed.

Lemma input_events_only_move_target_witness :
  let g := handle 0.75 (EvKeyDown KeyEnter) initial in
  let g' := handle 0.25 (EvKeyDown ArrowLeft) g in
  ball g' = ball g /\ Paddle.x (paddle g') = Paddle.x (paddle g)
  /\ Paddle.targetX (paddle g') == 140.
Proof.
  intros g g'.
  assert (He : is_input (EvKeyDown ArrowLeft) = true) by reflexivity.
  assert (Hns : is_over (state g) = false \/ is_start (EvKeyDown ArrowLeft) = false)
    by (left; reflexivity).
  destruct (input_events_only_move_target 0.25 (EvKeyDown ArrowLeft) g He Hns)
    as (_ & _ & _ & Hb & _ & Hx & _).
  split; [exact Hb |]. split; [exact Hx | by_computation].
Defined.

(** X7.  In [menu], [win] or [lose], a pointer press or the Space or Enter
    key starts a new game whatever the old state was: mode [playing], score
    0, three lives, the full grid of 40 active bricks, the paddle centered
    with its target on it and the ball served from it.  The input state is
    not touched, so the press that starts the game does not grab the
    paddle. *)
Theorem start_trigger_resets (rnd : Q) (e : Event) (g : Game) :
  is_over (state g) = true -> is_start e = true ->
  let g' := handle rnd e g in
  state g' = playing /\ score g' = 0%Z /\ lives g' = 3%Z
  /\ bricks g' = brickGrid /\ activeCount (bricks g') = 40%nat
  /\ Paddle.x (paddle g') == (GAME_W - Paddle.w (paddle g)) / 2
  /\ Paddle.targetX (paddle g') = Paddle.x (paddle g')
  /\ Paddle.w (paddle g') = Paddle.w (paddle g)
  /\ served rnd (paddle g') (ball g) (ball g')
  /\ input g' = input g.
Proof.
  intros O S g'. subst g'.
  assert (He : is_input e = true) by (destruct e; try reflexivity; discriminate).
  destruct (input_event_cases rnd e g He) as [(_ & _ & ->) | ([C | C] & _)];
    try congruence.
  split; [reflexivity |]. split; [reflexivity |]. split; [reflexivity |].
  split; [reflexivity |]. split; [reflexivity |].
  split.
  { cbn [startNewGame initGame resetBallOnPaddle paddle set_paddle set_bricks
         set_score set_lives set_state set_ball Paddle.x Paddle_set_x
         Paddle_set_targetX Paddle.w].
    unfold GAME_W, Qdiv. lra. }
  split; [reflexivity |]. split; [reflexivity |].
  split; [| reflexivity].
  apply (resetBallOnPaddle_served rnd
           (set_paddle
              (Paddle_set_targetX (GAME_W / 2 - Paddle.w (paddle g) / 2)
                 (Paddle_set_x (GAME_W / 2 - Paddle.w (paddle g) / 2) (paddle g)))
              (set_bricks brickGrid
                 (set_state playing (set_lives 3%Z (set_score 0%Z g)))))).
Qed.

Lemma start_trigger_resets_witness :
  let g := mkGame lose 130 0 (Paddle.mk 20 600 60 10 0)
             (Ball.mk 100 700 90 260 6) [] (Input.mk true 5 5) in
  let g' := handle 0.75 (EvPointerDown 10 10 (DOMRect.mk 0 0 360 640)) g in
  state g' = playing /\ score g' = 0%Z /\ lives g' = 3%Z
  /\ activeCount (bricks g') = 40%nat.
Proof.
  intros g g'.
  destruct (start_trigger_resets 0.75 (EvPointerDown 10 10 (DOMRect.mk 0 0 360 640))
              g eq_refl eq_refl) as (H1 & H2 & H3 & _ & H5 & _).
  repeat split; assumption.
Defined.

(** X8.  Outside play nothing but a start trigger changes the game: any
    other event (a frame, a pointer move or release, any other key) leaves
    mode, score, lives, paddle (target included), ball and bricks exactly
    as they were. *)
Theorem idle_states_absorb (rnd : Q) (e : Event) (g : Game) :
  state g <> playing ->
  is_over (state g) = false \/ is_start e = false ->
  let g' := handle rnd e g in
  state g' = state g /\ score g' = score g /\ lives g' = lives g
  /\ paddle g' = paddle g /\ ball g' = ball g /\ bricks g' = bricks g.
Proof.
  intros Hn Hns g'. subst g'.
  destruct (is_input e) eqn:He.
  - destruct (input_event_cases rnd e g He)
      as [(O & S & _) | (_ & t & i & -> & Ht)].
    + destruct Hns; congruence.
    + rewrite (Ht Hn). destruct g as [s sc lv [px py pw ph pt] b bs inp].
      repeat split.
  - destruct e; try discriminate. cbn [handle].
    rewrite (update_idle dt rnd g Hn). repeat split.
Qed.

Lemma idle_states_absorb_witness :
  let g := mkGame win 400 2 (Paddle.mk 20 600 60 10 0)
             (Ball.mk 100 300 90 260 6) [] (Input.mk true 5 5) in
  let g' := handle 0.75 (EvPointerMove 300 10 (DOMRect.mk 0 0 360 640)) g in
  state g' = win /\ paddle g' = paddle g.
Proof.
  intros g g'.
  assert (Hn : state g <> playing) by discriminate.
  destruct (idle_states_absorb 0.75 (EvPointerMove 300 10 (DOMRect.mk 0 0 360 640))
              g Hn (or_intror eq_refl)) as (H1 & _ & _ & H4 & _).
  split; assumption.
Defined.

(** X9.  The mode changes in three ways only: a start trigger takes
    [menu], [win] or [lose] to [playing], and a frame takes [playing] to
    [win] or to [lose].  In particular [menu] is never entered again,
    [paused] is never entered, and a pointer press during play does not
    restart the game. *)
Theorem mode_transitions (rnd : Q) (e : Event) (g : Game) :
  let g' := handle rnd e g in
  state g' = state g
  \/ (is_over (state g) = true /\ is_start e = true /\ state g' = playing)
  \/ (state g = playing /\ is_input e = false
      /\ (state g' = win \/ state g' = lose)).
Proof.
  intros g'. subst g'.
  destruct (is_input e) eqn:He.
  - destruct (input_event_cases rnd e g He)
      as [(O & S & ->) | (_ & t & i & -> & _)].
    + right. left. repeat split; assumption.
    + left. reflexivity.
  - destruct e; try discriminate. cbn [handle].
    destruct (Mode_eqb (state g) playing) eqn:M.
    + apply Mode_eqb_eq in M. rewrite (update_playing dt rnd g M).
      destruct (winCheck_cases (outOfBounds rnd (afterBricks (integrate dt g))))
        as [[_ ->] | [_ ->]].
      * right. right. repeat split; [exact M | left; reflexivity].
      * destruct (afterBricks_frame (integrate dt g)) as (Hs & _).
        change (state (integrate dt g)) with (state g) in Hs.
        destruct (outOfBounds_cases rnd (afterBricks (integrate dt g)))
          as [[_ ->] | [(_ & _ & ->) | (_ & _ & ->)]].
        -- left. exact Hs.
        -- right. right. repeat split; [exact M | right; reflexivity].
        -- left. exact Hs.
    + left. rewrite update_idle; [reflexivity |].
      intros C. apply Mode_eqb_eq in C. congruence.
Qed.

(** ** Dragging the paddle *)




(** X11.  A pointer move is ignored unless a drag is going on: with
    [pointerActive] false it changes nothing, so after a release (or a
    cancel) moves have no effect until the next press. *)
Theorem move_without_drag_ignored (cx cy : Q) (rect : DOMRect.t) (g : Game) :
  (Input.pointerActive (input g) = false -> pointermove cx cy rect g = g)
  /\ pointermove cx cy rect (pointerup g) = pointerup g.
Proof.
  split.
  - intros H. unfold pointermove. rewrite H, andb_false_r. reflexivity.
  - unfold pointermove, pointerup.
    cbn [input set_input Input.pointerActive]. rewrite andb_false_r. reflexivity.
Qed.

Lemma move_without_drag_ignored_witness :
  pointermove 300 10 (DOMRect.mk 0 0 360 640) initial = initial.
Proof.
  destruct (move_without_drag_ignored 300 10 (DOMRect.mk 0 0 360 640) initial)
    as [H _].
  apply H. reflexivity.
Defined.

(** X12.  During play, with the target inside the playfield, ArrowLeft
    moves the target 10 to the left but not below 0, ArrowRight 10 to the
    right but not beyond [GAME_W - paddle.w], and any other key leaves the
    game as it is. *)
Theorem arrow_keys_nudge_target (rnd : Q) (g : Game) :
  state g = playing ->
  0 <= Paddle.targetX (paddle g) <= GAME_W - Paddle.w (paddle g) ->
  Paddle.targetX (paddle (keydown rnd ArrowLeft g))
  == Qmax 0 (Paddle.targetX (paddle g) - 10)
  /\ Paddle.targetX (paddle (keydown rnd ArrowRight g))
     == Qmin (GAME_W - Paddle.w (paddle g)) (Paddle.targetX (paddle g) + 10)
  /\ (forall key, key <> ArrowLeft -> key <> ArrowRight -> keydown rnd key g = g).
Proof.
  intros Hp [H0 H1]. unfold keydown. rewrite Hp.
  cbn [is_over Mode_eqb orb Key_eqb paddle set_paddle Paddle.targetX
       Paddle_set_targetX Paddle.w].
  split; [| split].
  - unfold clamp.
    min_cases (GAME_W - Paddle.w (paddle g)) (Paddle.targetX (paddle g) - 10);
      max_cases 0 m; max_cases 0 (Paddle.targetX (paddle g) - 10); lra.
  - unfold clamp.
    min_cases (GAME_W - Paddle.w (paddle g)) (Paddle.targetX (paddle g) + 10);
      max_cases 0 m; lra.
  - intros key Hl Hr. destruct key; try reflexivity; contradiction.
Qed.

Lemma arrow_keys_nudge_target_witness :
  let g := handle 0.75 (EvKeyDown KeyEnter) initial in
  Paddle.targetX (paddle (keydown 0.25 ArrowRight g)) == 160.
Proof.
  intros g.
  assert (Hp : state g = playing) by reflexivity.
  assert (Hin : 0 <= Paddle.targetX (paddle g) <= GAME_W - Paddle.w (paddle g))
    by (split; by_computation).
  destruct (arrow_keys_nudge_target 0.25 g Hp Hin) as (_ & H & _).
  rewrite H. by_computation.
Defined.

(** ** Screen and game coordinates *)

(** X13.  For a canvas box of nonzero size, [screenToGame] sends the
    top-left corner of the box to (0, 0) and the bottom-right one to
    ([GAME_W], [GAME_H]); horizontal distances are scaled by
    [GAME_W / width]; and with a positive width every point over the box
    lands in [[0, GAME_W]]. *)
Theorem screenToGame_maps_box (x y x' : Q) (rect : DOMRect.t) :
  ~ DOMRect.width rect == 0 -> ~ DOMRect.height rect == 0 ->
  let corner0 := screenToGame (DOMRect.left rect) (DOMRect.top rect) rect in
  let corner1 :=
    screenToGame (DOMRect.left rect + DOMRect.width rect)
      (DOMRect.top rect + DOMRect.height rect) rect in
  (fst corner0 == 0 /\ snd corner0 == 0)
  /\ (fst corner1 == GAME_W /\ snd corner1 == GAME_H)
  /\ fst (screenToGame x' y rect) - fst (screenToGame x y rect)
     == (x' - x) * (GAME_W / DOMRect.width rect)
  /\ (0 < DOMRect.width rect ->
      DOMRect.left rect <= x <= DOMRect.left rect + DOMRect.width rect ->
      0 <= fst (screenToGame x y rect) <= GAME_W).
Proof.
  intros Hw Hh corner0 corner1. subst corner0 corner1.
  unfold screenToGame. cbn [fst snd].
  split; [split; ring |].
  split; [split; field; assumption |].
  split; [ring |].
  intros Hpos [Hl Hr].
  assert (Hs : 0 < GAME_W / DOMRect.width rect).
  { unfold Qdiv. apply Qmult_lt_0_compat; [by_computation |].
    apply Qinv_lt_0_compat. exact Hpos. }
  assert (E : DOMRect.width rect * (GAME_W / DOMRect.width rect) == GAME_W)
    by (field; assumption).
  set (s := GAME_W / DOMRect.width rect) in *. clearbody s.
  split.
  - apply Qmult_le_0_compat; lra.
  - rewrite <- E. rewrite (Qmult_comm (DOMRect.width rect) s).
    rewrite (Qmult_comm (x - DOMRect.left rect) s).
    apply Qmult_le_l; [exact Hs | lra].
Qed.

Lemma screenToGame_maps_box_witness :
  let rect := DOMRect.mk 20 30 180 320 in
  0 <= fst (screenToGame 110 100 rect) <= GAME_W
  /\ fst (screenToGame 200 350 rect) == GAME_W.
Proof.
  intros rect.
  assert (Hw : ~ DOMRect.width rect == 0) by by_computation.
  assert (Hh : ~ DOMRect.height rect == 0) by by_computation.
  destruct (screenToGame_maps_box 110 100 110 rect Hw Hh)
    as (_ & (H1 & _) & _ & Hin).
  split; [| exact H1].
  apply Hin; [by_computation | split; by_computation].
Defined.

(** ** Canvas size *)

(** X14.  [resizeCanvas] never displays the canvas wider than the viewport
    or than the playfield, keeps the playfield's aspect ratio, gives the
    canvas [GAME_W] by [GAME_H] pixels times the pixel ratio and never uses
    a zero scale (a missing ratio counts as 1).  With a positive viewport
    width, a box of the displayed size maps screen distances to game
    distances by the same factor on both axes. *)
Theorem resizeCanvas_layout (innerWidth devicePixelRatio : Q) :
  let l := resizeCanvas innerWidth devicePixelRatio in
  Layout.styleWidth l <= innerWidth /\ Layout.styleWidth l <= GAME_W
  /\ Layout.styleHeight l * GAME_W == Layout.styleWidth l * GAME_H
  /\ Layout.width l == GAME_W * Layout.scale l
  /\ Layout.height l == GAME_H * Layout.scale l
  /\ ~ Layout.scale l == 0
  /\ (~ devicePixelRatio == 0 -> Layout.scale l = devicePixelRatio)
  /\ (0 < innerWidth ->
      GAME_W / Layout.styleWidth l == GAME_H / Layout.styleHeight l).
Proof.
  intros l. subst l. unfold resizeCanvas.
  cbn [Layout.styleWidth Layout.styleHeight Layout.width Layout.height
       Layout.scale].
  assert (HW : GAME_W == 360) by reflexivity.
  assert (HH : GAME_H == 640) by reflexivity.
  split; [min_cases innerWidth GAME_W; lra |].
  split; [min_cases innerWidth GAME_W; lra |].
  split; [field; rewrite HW; lra |].
  split; [reflexivity |]. split; [reflexivity |].
  split.
  { destruct (Qeqb devicePixelRatio 0) eqn:E; tests_to_props; [lra | exact E]. }
  split.
  { intros Hn. destruct (Qeqb devicePixelRatio 0) eqn:E; tests_to_props;
      [contradiction | reflexivity]. }
  intros Hpos.
  assert (Hm : 0 < Qmin innerWidth GAME_W)
    by (min_cases innerWidth GAME_W; lra).
  field. split; [lra |]. split; lra.
Qed.

Lemma resizeCanvas_layout_witness :
  let l := resizeCanvas 320 0 in
  Layout.styleWidth l == 320 /\ Layout.scale l == 1
  /\ GAME_W / Layout.styleWidth l == GAME_H / Layout.styleHeight l.
Proof.
  intros l.
  destruct (resizeCanvas_layout 320 0) as (_ & _ & _ & _ & _ & _ & _ & H).
  split; [by_computation |]. split; [by_computation |].
  apply H. by_computation.
Defined.

(** ** Timing of frames *)

(** X15.  [gameLoop] never hands [update] a time step outside
    [[0, MAX_DT]] when the clock does not run backwards: the first timed
    frame gets 0, a gap of at most [MAX_DT] seconds is passed on as it is
    (timestamps are in milliseconds), and a longer gap, as after a stall,
    is cut to [MAX_DT].  The timestamp is remembered for the next frame. *)
Theorem gameLoop_time_step (ts rnd lastTime : Q) (g : Game) :
  lastTime <= ts ->
  let dt := gameLoop_dt lastTime ts in
  gameLoop ts rnd (lastTime, g) = (ts, update dt rnd g)
  /\ 0 <= dt <= MAX_DT
  /\ (lastTime == 0 -> dt == 0)
  /\ (~ lastTime == 0 -> (ts - lastTime) / 1000 <= MAX_DT ->
      dt == (ts - lastTime) / 1000)
  /\ (~ lastTime == 0 -> MAX_DT < (ts - lastTime) / 1000 -> dt = MAX_DT).
Proof.
  intros H dt. subst dt.
  split; [reflexivity |].
  split; [apply (gameLoop_dt_ok lastTime ts H) |].
  assert (Hm : 0 <= MAX_DT) by by_computation.
  unfold gameLoop_dt.
  destruct (Qeqb lastTime 0) eqn:Z; tests_to_props.
  - split; [| split; intros; contradiction].
    intros _.
    destruct (Qgtb ((ts - ts) / 1000) MAX_DT) eqn:E; tests_to_props;
      unfold Qdiv in *; change (/ 1000) with (1 # 1000) in *; lra.
  - split; [intros; contradiction |].
    destruct (Qgtb ((ts - lastTime) / 1000) MAX_DT) eqn:E; tests_to_props;
      split; intros _ Hc; try reflexivity; lra.
Qed.

Lemma gameLoop_time_step_witness :
  gameLoop_dt 1000 5000 = MAX_DT /\ gameLoop_dt 1000 1016 == 0.016.
Proof.
  assert (H1 : 1000 <= 5000) by by_computation.
  destruct (gameLoop_time_step 5000 0.5 1000 initial H1) as (_ & _ & _ & _ & Hcap).
  split; [apply Hcap; by_computation |].
  assert (H2 : 1000 <= 1016) by by_computation.
  destruct (gameLoop_time_step 1016 0.5 1000 initial H2) as (_ & _ & _ & Hsame & _).
  rewrite Hsame; by_computation.
Defined.

(** ** Paddle smoothing *)

(** X16.  The smoothing step of a tick moves the paddle toward its target
    without overshooting: for [dt >= 0] the new position lies between the
    old one and the target; for the steps [gameLoop] passes
    ([0 <= dt <= MAX_DT]) the remaining distance is the old one times
    [1 - 20 dt]; a paddle on its target stays there.  The target and the
    paddle's [y], [w], [h] are not written. *)
Theorem smoothing_no_overshoot (dt : Q) (g : Game) :
  0 <= dt ->
  let p := paddle g in
  let p' := paddle (integrate dt g) in
  Qmin (Paddle.x p) (Paddle.targetX p) <= Paddle.x p'
    <= Qmax (Paddle.x p) (Paddle.targetX p)
  /\ (dt <= MAX_DT ->
      Paddle.targetX p - Paddle.x p'
      == (Paddle.targetX p - Paddle.x p) * (1 - 20 * dt))
  /\ (Paddle.x p == Paddle.targetX p -> Paddle.x p' == Paddle.x p)
  /\ (Paddle.targetX p' = Paddle.targetX p /\ Paddle.y p' = Paddle.y p
      /\ Paddle.w p' = Paddle.w p /\ Paddle.h p' = Paddle.h p).
Proof.
  intros Hdt p p'. subst p p'.
  unfold integrate.
  cbn [paddle set_paddle set_ball Paddle.x Paddle.y Paddle.w Paddle.h
       Paddle.targetX Paddle_set_x].
  pose proof (smoothing_factor dt Hdt) as [Hk0 Hk1].
  set (k := Qmin 1 (dt * PADDLE_SMOOTHING)) in *.
  assert (Hk : dt <= MAX_DT -> k == 20 * dt).
  { intros Hd. assert (Hm : MAX_DT == 1 # 30) by reflexivity. rewrite Hm in Hd.
    subst k. unfold PADDLE_SMOOTHING.
    min_cases 1 (dt * 20); lra. }
  clearbody k.
  set (x := Paddle.x (paddle g)) in *.
  set (t := Paddle.targetX (paddle g)) in *.
  clearbody x t.
  split.
  { min_cases x t; max_cases x t; split; nra. }
  split.
  { intros Hd. rewrite (Hk Hd). ring. }
  split; [intros E; nra |].
  repeat split.
Qed.

Lemma smoothing_no_overshoot_witness :
  let g := mkGame playing 0 3 (Paddle.mk 100 600 60 10 160)
             (Ball.mk 180 300 180 (- (260)) 6) brickGrid (Input.mk false 0 0) in
  Paddle.x (paddle (integrate MAX_DT g)) == 140.
Proof.
  intros g.
  assert (Hdt : 0 <= MAX_DT) by by_computation.
  destruct (smoothing_no_overshoot MAX_DT g Hdt) as (_ & H & _).
  assert (Hle : MAX_DT <= MAX_DT) by by_computation.
  specialize (H Hle). cbn [paddle g Paddle.targetX Paddle.x] in H.
  assert (Hm : MAX_DT == 1 # 30) by reflexivity.
  rewrite Hm in H at 2.
  lra.
Defined.

(** ** The serve *)

(** Before the first game there is no brick at all. *)
Lemma reachable_menu_no_bricks (g : Game) :
  reachable g -> state g = menu -> bricks g = [].
Proof.
  induction 1 as [| g rnd e Hr IH He]; intros M; [reflexivity |].
  assert (M0 : state g = menu).
  { destruct (mode_transitions rnd e g) as [E | [(_ & _ & E) | (_ & _ & [E | E])]];
      cbv zeta in E; congruence. }
  assert (Hns : is_over (state g) = false \/ is_start e = false).
  { destruct (is_start e) eqn:S; [| right; reflexivity].
    exfalso.
    assert (O : is_over (state g) = true) by (rewrite M0; reflexivity).
    destruct (start_trigger_resets rnd e g O S) as (Hs & _).
    cbv zeta in Hs. congruence. }
  assert (Hn : state g <> playing) by congruence.
  destruct (idle_states_absorb rnd e g Hn Hns) as (_ & _ & _ & _ & _ & Hb).
  cbv zeta in Hb. rewrite Hb. apply IH. exact M0.
Qed.

(** X17.  In every reachable state a serve puts the ball where it touches
    nothing: clear of the paddle, away from the three walls, below every
    brick and above the bottom edge, moving up; so the collision stages
    leave a freshly served ball as it is. *)
Theorem serve_touches_nothing (rnd : Q) (g : Game) :
  reachable g ->
  let g' := resetBallOnPaddle rnd g in
  separated (ball g') (rect_of (paddle g'))
  /\ wallCollisions (ball g') = ball g'
  /\ Forall (fun k => brickHit (ball g') k = false) (bricks g')
  /\ ballOut (ball g') = false
  /\ Ball.vy (ball g') < 0
  /\ ball (afterBricks g') = ball g'.
Proof.
  intros H g'.
  pose proof (reachable_Inv g H) as I.
  destruct (reachable_paddleInside g H) as [[Hx0 Hx1] _].
  pose proof (inv_paddle_w g I) as Hw. pose proof (inv_paddle_h g I) as Hh.
  pose proof (inv_paddle_y g I) as Hy. pose proof (inv_ball_r g I) as Hr.
  rewrite Hw in Hx1. unfold GAME_W in Hx1.
  destruct (resetBallOnPaddle_served rnd g) as (Sx & Sy & Svy & Svx & Sr).
  fold g' in Sx, Sy, Svy, Svx, Sr.
  assert (Hp' : paddle g' = paddle g) by reflexivity.
  assert (Hb' : bricks g' = bricks g) by reflexivity.
  rewrite Hw in Sx. rewrite Hy, Hr in Sy. rewrite Hr in Sr.
  unfold GAME_H in Sy. unfold Qdiv in Sx. change (/ 2) with (1 # 2) in Sx.
  remember (ball g') as b eqn:Eb.
  assert (Hsep : separated b (rect_of (paddle g'))).
  { apply separated_top.
    - rewrite Sr. lra.
    - rewrite Hp'. split; cbn [rect_of Paddle_Rectangular Rect.w Rect.h];
        rewrite ?Hw, ?Hh; lra.
    - rewrite Hp'. cbn [rect_of Paddle_Rectangular Rect.y]. rewrite Hy, Sr.
      unfold GAME_H. lra. }
  assert (Hwall : wallCollisions b = b).
  { apply walls_inside; rewrite Sr; unfold GAME_W; lra. }
  assert (Hout : ballOut b = false).
  { unfold ballOut, Qgtb. apply Qltb_false. rewrite Sr. unfold GAME_H. lra. }
  assert (Hall : Forall (fun k => brickHit b k = false) (bricks g')).
  { rewrite Hb'. destruct (Mode_eqb (state g) menu) eqn:M.
    - apply Mode_eqb_eq in M.
      rewrite (reachable_menu_no_bricks g H M). constructor.
    - apply below_grid_no_hit.
      + apply (inv_grid g I). intros C. rewrite C in M. discriminate.
      + rewrite Sr. lra.
      + rewrite Sr. lra. }
  split; [exact Hsep |]. split; [exact Hwall |]. split; [exact Hall |].
  split; [exact Hout |]. split; [lra |].
  unfold afterBricks.
  assert (Hps : ball (paddleStage (wallStage g')) = b).
  { unfold paddleStage, wallStage. cbn [ball set_ball paddle].
    rewrite <- Eb, Hwall. unfold paddleCollision.
    rewrite (reflect_miss b (rect_of (paddle g')) Hsep). reflexivity. }
  rewrite Forall_no_hit_outcome; [exact Hps |].
  rewrite Hps. exact Hall.
Qed.

Lemma serve_touches_nothing_witness :
  let g := handle 0.25 (EvFrame MAX_DT)
             (handle 0.25 (EvPointerMove 300 500 (DOMRect.mk 0 0 360 640))
                (handle 0.25 (EvPointerDown 200 600 (DOMRect.mk 0 0 360 640))
                   (handle 0.75 (EvKeyDown KeyEnter) initial))) in
  separated (ball (resetBallOnPaddle 0.75 g))
    (rect_of (paddle (resetBallOnPaddle 0.75 g))).
Proof.
  intros g.
  destruct (serve_touches_nothing 0.75 g reachable_sample) as [H _]. exact H.
Defined.

(** ** Bricks over time *)

Lemma fades_refl (bs : list Brick.t) : fades bs bs.
Proof.
  unfold fades. induction bs; constructor; [split; [reflexivity | tauto] | assumption].
Qed.

Lemma fades_trans (l1 l2 l3 : list Brick.t) :
  fades l1 l2 -> fades l2 l3 -> fades l1 l3.
Proof.
  unfold fades. intros H12. revert l3.
  induction H12 as [| a b l1 l2 [Hr Ha] _ IH]; intros l3 H23.
  - inversion H23. constructor.
  - inversion H23 as [| b' c l2' l3' [Hr' Ha'] Hrest]; subst.
    constructor; [| apply IH; assumption].
    split; [congruence | tauto].
Qed.

Lemma fades_deactivate (pre post : list Brick.t) (k : Brick.t) :
  fades (pre ++ k :: post) (pre ++ Brick_set_active false k :: post).
Proof.
  unfold fades. induction pre as [| a pre IH]; cbn [app].
  - constructor; [split; [reflexivity | cbn; discriminate] | apply fades_refl].
  - constructor; [split; [reflexivity | tauto] | exact IH].
Qed.

Lemma update_fades (dt rnd : Q) (g : Game) :
  fades (bricks g) (bricks (update dt rnd g)).
Proof.
  destruct (Mode_eqb (state g) playing) eqn:M.
  - apply Mode_eqb_eq in M.
    destruct (update_bricks_score dt rnd g M) as [-> _].
    destruct (afterBricks_outcome (integrate dt g))
      as [(_ & _ & -> & _) | (pre & k & post & Hs & _ & _ & _ & _ & ->)].
    + apply fades_refl.
    + change (bricks (integrate dt g)) with (bricks g) in Hs. rewrite Hs.
      apply fades_deactivate.
  - rewrite update_idle; [apply fades_refl |].
    intros C. apply Mode_eqb_eq in C. congruence.
Qed.

(** X18.  Over any run of ticks the brick array keeps its length, order
    and rectangles, and a brick that is inactive stays inactive: no tick
    ever reactivates or moves a brick. *)
Theorem bricks_never_come_back (l : list (Q * Q)) (g : Game) :
  fades (bricks g) (bricks (ticks l g))
  /\ length (bricks (ticks l g)) = length (bricks g)
  /\ (activeCount (bricks (ticks l g)) <= activeCount (bricks g))%nat.
Proof.
  assert (H : fades (bricks g) (bricks (ticks l g))).
  { revert g. induction l as [| [dt rnd] l IH]; intros g; cbn [ticks].
    - apply fades_refl.
    - apply (fades_trans _ (bricks (update dt rnd g))); [apply update_fades | apply IH]. }
  split; [exact H |].
  unfold fades in H.
  induction H as [| a b l1 l2 [Hr Ha] _ [IHl IHc]]; [split; reflexivity |].
  split; [cbn; congruence |].
  unfold activeCount in *. cbn [filter].
  destruct (Brick.active b) eqn:B.
  - rewrite (Ha eq_refl). cbn [length]. lia.
  - destruct (Brick.active a); cbn [length]; lia.
Qed.

(** ** Score and lives *)

Lemma accounted_update (dt rnd : Q) (g : Game) :
  accounted g -> accounted (update dt rnd g).
Proof.
  intros [Hs Hl]. split.
  - intros Hm'.
    destruct (Mode_eqb (state g) playing) eqn:M.
    + apply Mode_eqb_eq in M.
      assert (Hm : state g <> menu) by congruence.
      specialize (Hs Hm).
      destruct (update_bricks_score dt rnd g M) as [-> ->].
      destruct (afterBricks_outcome (integrate dt g))
        as [(_ & -> & -> & _) | (pre & k & post & Hsp & _ & Hh & _ & -> & ->)].
      * exact Hs.
      * change (bricks (integrate dt g)) with (bricks g) in Hsp.
        change (score (integrate dt g)) with (score g).
        rewrite Hsp, (activeCount_hit _ pre post k Hh) in Hs. lia.
    + assert (Hn : state g <> playing)
        by (intros C; apply Mode_eqb_eq in C; congruence).
      rewrite (update_idle dt rnd g Hn) in Hm' |- *.
      apply Hs. exact Hm'.
  - pose proof (update_lives_le dt rnd g). lia.
Qed.

Lemma accounted_handle (rnd : Q) (e : Event) (g : Game) :
  accounted g -> accounted (handle rnd e g).
Proof.
  intros A. destruct (is_input e) eqn:He.
  - destruct (input_event_cases rnd e g He)
      as [(_ & _ & ->) | (_ & t & i & -> & _)].
    + split; [intros _; reflexivity | cbn; lia].
    + exact A.
  - destruct e; try discriminate. apply accounted_update. exact A.
Qed.

Lemma reachable_accounted (g : Game) : reachable g -> accounted g.
Proof.
  induction 1 as [| g rnd e _ IH _].
  - split; [intros C; contradiction C; reflexivity | cbn; lia].
  - apply accounted_handle. exact IH.
Qed.

(** X19.  Once a game has been started the score is ten times the number
    of bricks destroyed in the current game: in every reachable state other
    than the initial menu, [score = 10 * (40 - active bricks)].  So the
    score lies between 0 and 400 and is 400 whenever the mode is [win]. *)
Theorem score_counts_destroyed_bricks (g : Game) :
  reachable g -> state g <> menu ->
  score g = (10 * (40 - Z.of_nat (activeCount (bricks g))))%Z
  /\ (0 <= score g <= 400)%Z
  /\ (state g = win -> score g = 400%Z).
Proof.
  intros H Hm.
  destruct (reachable_accounted g H) as [Hs _]. specialize (Hs Hm).
  pose proof (reachable_Inv g H) as I.
  split; [lia |]. split; [pose proof (inv_score g I); lia |].
  intros W. pose proof (inv_win g I W) as A.
  apply allCleared_activeCount in A. rewrite A in Hs. cbn in Hs. lia.
Qed.

Lemma score_counts_destroyed_bricks_witness :
  let g := handle 0.25 (EvFrame MAX_DT)
             (handle 0.25 (EvPointerMove 300 500 (DOMRect.mk 0 0 360 640))
                (handle 0.25 (EvPointerDown 200 600 (DOMRect.mk 0 0 360 640))
                   (handle 0.75 (EvKeyDown KeyEnter) initial))) in
  (0 <= score g <= 400)%Z.
Proof.
  intros g.
  assert (Hm : state g <> menu).
  { assert (Hp : state g = playing) by reflexivity. rewrite Hp. discriminate. }
  destruct (score_counts_destroyed_bricks g reachable_sample Hm) as (_ & H & _).
  exact H.
Defined.

(** X20.  In every reachable state the number of lives is between 0 and 3;
    it is at least 1 during play and exactly 0 in mode [lose]. *)
Theorem lives_in_range (g : Game) :
  reachable g ->
  (0 <= lives g <= 3)%Z
  /\ (state g = playing -> (1 <= lives g)%Z)
  /\ (state g = lose -> lives g = 0%Z).
Proof.
  intros H. pose proof (reachable_Inv g H) as I.
  destruct (reachable_accounted g H) as [_ Hl].
  split; [pose proof (inv_lives g I); lia |].
  split; [intros P; apply (inv_playing g I P) | intros L; apply (inv_lose g I L)].
Qed.

Lemma lives_in_range_witness :
  let g := handle 0.25 (EvFrame MAX_DT)
             (handle 0.25 (EvPointerMove 300 500 (DOMRect.mk 0 0 360 640))
                (handle 0.25 (EvPointerDown 200 600 (DOMRect.mk 0 0 360 640))
                   (handle 0.75 (EvKeyDown KeyEnter) initial))) in
  (0 <= lives g <= 3)%Z.
Proof.
  intros g. destruct (lives_in_range g reachable_sample) as [H _]. exact H.
Defined.

Lemma update_lives_in_play (dt rnd : Q) (g : Game) :
  state g = playing ->
  ballOut (ball (afterBricks (integrate dt g))) = false ->
  lives (update dt rnd g) = lives g.
Proof.
  intros Hp Hout. rewrite (update_playing dt rnd g Hp).
  destruct (winCheck_frame (outOfBounds rnd (afterBricks (integrate dt g))))
    as (_ & -> & _).
  destruct (afterBricks_frame (integrate dt g)) as (_ & Hl & _).
  destruct (outOfBounds_cases rnd (afterBricks (integrate dt g)))
    as [[_ ->] | [(C & _) | (C & _)]]; [exact Hl | congruence | congruence].
Qed.

(** X21.  In a reachable state no tick both destroys a brick and takes a
    life: if the score goes up the lives stay, and if a life goes the score
    and every brick stay. *)
Theorem no_score_and_life_lost_together (dt rnd : Q) (g : Game) :
  reachable g ->
  let g' := update dt rnd g in
  (score g' <> score g -> lives g' = lives g)
  /\ (lives g' <> lives g -> score g' = score g /\ bricks g' = bricks g).
Proof.
  intros H g'. subst g'.
  pose proof (reachable_Inv g H) as I.
  assert (Hkey : lives (update dt rnd g) <> lives g ->
                 score (update dt rnd g) = score g
                 /\ bricks (update dt rnd g) = bricks g).
  { intros Hl.
    destruct (Mode_eqb (state g) playing) eqn:M.
    - apply Mode_eqb_eq in M.
      destruct (ballOut (ball (afterBricks (integrate dt g)))) eqn:B.
      + destruct (out_no_brick_hit dt g I M B) as [Hb Hs].
        destruct (update_bricks_score dt rnd g M) as [-> ->].
        split; assumption.
      + exfalso. apply Hl. apply update_lives_in_play; assumption.
    - exfalso. apply Hl. rewrite update_idle; [reflexivity |].
      intros C. apply Mode_eqb_eq in C. congruence. }
  split; [| exact Hkey].
  intros Hs.
  destruct (Z.eq_dec (lives (update dt rnd g)) (lives g)) as [E | E]; [exact E |].
  destruct (Hkey E) as [C _]. contradiction.
Qed.

Lemma no_score_and_life_lost_together_witness :
  let g := handle 0.25 (EvFrame MAX_DT)
             (handle 0.25 (EvPointerMove 300 500 (DOMRect.mk 0 0 360 640))
                (handle 0.25 (EvPointerDown 200 600 (DOMRect.mk 0 0 360 640))
                   (handle 0.75 (EvKeyDown KeyEnter) initial))) in
  score (update MAX_DT 0.5 g) = score g \/ lives (update MAX_DT 0.5 g) = lives g.
Proof.
  intros g.
  destruct (no_score_and_life_lost_together MAX_DT 0.5 g reachable_sample)
    as [H _].
  destruct (Z.eq_dec (score (update MAX_DT 0.5 g)) (score g)) as [E | E];
    [left; exact E | right; exact (H E)].
Defined.

(** X22.  A tick of play that starts with no active brick (an empty array
    included) ends in mode [win], whatever happens to the ball: the win
    check comes last, so it prevails even when the last life is lost in the
    same tick. *)
Theorem cleared_grid_wins (dt rnd : Q) (g : Game) :
  state g = playing -> allCleared (bricks g) = true ->
  state (update dt rnd g) = win /\ bricks (update dt rnd g) = bricks g
  /\ score (update dt rnd g) = score g.
Proof.
  intros Hp A.
  destruct (update_bricks_score dt rnd g Hp) as [Hb Hs].
  assert (Hkeep : bricks (afterBricks (integrate dt g)) = bricks g
                  /\ score (afterBricks (integrate dt g)) = score g).
  { destruct (afterBricks_outcome (integrate dt g))
      as [(_ & Hs1 & Hb1 & _) | (pre & k & post & Hsp & _ & Hh & _)].
    - split; assumption.
    - exfalso. change (bricks (integrate dt g)) with (bricks g) in Hsp.
      apply allCleared_activeCount in A.
      rewrite Hsp, (activeCount_hit _ pre post k Hh) in A. discriminate. }
  destruct Hkeep as [Hb1 Hs1].
  split; [| split; congruence].
  rewrite (update_playing dt rnd g Hp).
  destruct (winCheck_cases (outOfBounds rnd (afterBricks (integrate dt g))))
    as [[_ ->] | [C _]]; [reflexivity |].
  destruct (outOfBounds_frame rnd (afterBricks (integrate dt g))) as (_ & Hb2 & _).
  rewrite Hb2, Hb1 in C. congruence.
Qed.

Lemma cleared_grid_wins_witness :
  let g := mkGame playing 0 1 (Paddle.mk 150 600 60 10 150)
             (Ball.mk 180 650 180 260 6) [] (Input.mk false 0 0) in
  state (update MAX_DT 0.5 g) = win /\ lives (update MAX_DT 0.5 g) = 0%Z.
Proof.
  intros g.
  destruct (cleared_grid_wins MAX_DT 0.5 g eq_refl eq_refl) as [H _].
  split; [exact H | vm_compute; reflexivity].
Defined.

(** ** The layout of the grid *)

Lemma Qnat_lt (a b : nat) : (a < b)%nat -> Qnat a + 1 <= Qnat b.
Proof.
  intros H. unfold Qnat. change 1 with (inject_Z 1).
  rewrite <- inject_Z_plus. rewrite <- Zle_Qle. lia.
Qed.

Lemma Qnat_nonneg (a : nat) : 0 <= Qnat a.
Proof.
  unfold Qnat. change 0 with (inject_Z 0). rewrite <- Zle_Qle. lia.
Qed.

Lemma brickW_value : brickW == 77 # 2.
Proof. by_computation. Qed.

(** X23.  The bricks [initGame] creates never touch: two bricks at
    different (row, column) places are at least 4 apart horizontally or
    vertically, and horizontal neighbours are exactly 4 apart.  The 5 by 8
    grid lies inside the playfield with a margin of at least 10 on the left
    and right, between [y = 80] and [y = 196]. *)
Theorem brick_grid_layout (row col row' col' : nat) :
  (row <> row' \/ col <> col' ->
   apart 4 (rect_of (newBrick row col)) (rect_of (newBrick row' col')))
  /\ Brick.x (newBrick row (S col))
     == Brick.x (newBrick row col) + Brick.w (newBrick row col) + 4
  /\ ((row < rows)%nat -> (col < cols)%nat ->
      10 <= Brick.x (newBrick row col)
      /\ Brick.x (newBrick row col) + Brick.w (newBrick row col) <= GAME_W - 10
      /\ 80 <= Brick.y (newBrick row col)
      /\ Brick.y (newBrick row col) + Brick.h (newBrick row col) <= 196).
Proof.
  pose proof brickW_value as Hw.
  pose proof (Qnat_nonneg row) as Hr0. pose proof (Qnat_nonneg col) as Hc0.
  unfold apart, newBrick, rect_of, Brick_Rectangular.
  cbn [Brick.x Brick.y Brick.w Brick.h Rect.x Rect.y Rect.w Rect.h].
  unfold startX, startY, brickH, GAME_W, rows, cols.
  rewrite !Hw.
  split; [| split].
  - intros Hne.
    destruct (Nat.lt_trichotomy col col') as [L | [E | L]].
    + left. pose proof (Qnat_lt col col' L). lra.
    + destruct (Nat.lt_trichotomy row row') as [L | [E' | L]].
      * right. right. left. pose proof (Qnat_lt row row' L). lra.
      * exfalso. destruct Hne; contradiction.
      * right. right. right. pose proof (Qnat_lt row' row L). lra.
    + right. left. pose proof (Qnat_lt col' col L). lra.
  - assert (E : Qnat (S col) == Qnat col + 1).
    { unfold Qnat. change 1 with (inject_Z 1). rewrite <- inject_Z_plus.
      rewrite Nat2Z.inj_succ. unfold Z.succ. reflexivity. }
    rewrite E. lra.
  - intros Hr Hc.
    assert (Hr4 : Qnat row + 1 <= Qnat 5) by (apply Qnat_lt; exact Hr).
    assert (Hc8 : Qnat col + 1 <= Qnat 8) by (apply Qnat_lt; exact Hc).
    assert (E5 : Qnat 5 == 5) by reflexivity.
    assert (E8 : Qnat 8 == 8) by reflexivity.
    repeat split; lra.
Qed.

Lemma brick_grid_layout_witness :
  apart 4 (rect_of (newBrick 1 2)) (rect_of (newBrick 1 3))
  /\ Brick.x (newBrick 4 7) + Brick.w (newBrick 4 7) <= GAME_W - 10.
Proof.
  destruct (brick_grid_layout 1 2 1 3) as [H _].
  split; [apply H; right; discriminate |].
  destruct (brick_grid_layout 4 7 4 7) as (_ & _ & Hin).
  apply Hin; unfold rows, cols; lia.
Defined.

(** ** Drawing *)

Lemma drawBricks_filter (bs : list Brick.t) :
  drawBricks bs
  = map (fun k => FillRect (Brick.x k) (Brick.y k) (Brick.w k) (Brick.h k)
                    "#3b82f6")
        (filter Brick.active bs).
Proof.
  induction bs as [| k rest IH]; cbn [drawBricks filter]; [reflexivity |].
  destruct (Brick.active k); cbn [app map]; rewrite IH; reflexivity.
Qed.

(** X24.  Every frame starts by clearing the whole playfield.  During play
    [draw] then issues the two texts of the score and the lives, one
    rectangle for each active brick in array order and none for an inactive
    one, the paddle and the ball; in [menu], [win] and [lose] it draws
    nothing but text after the clearing, neither bricks nor paddle nor
    ball. *)
Theorem draw_shows_active_bricks (g : Game) :
  hd_error (draw g) = Some (FillRect 0 0 GAME_W GAME_H "#0f0f1e")
  /\ (state g = playing ->
      draw g
      = [FillRect 0 0 GAME_W GAME_H "#0f0f1e";
         FillText [Lit "Score: "; Num (score g)] 10 20 20 "#fff" "left";
         FillText [Lit "Lives: "; Num (lives g)] (GAME_W - 10) 20 20 "#fff" "right"]
        ++ map (fun k => FillRect (Brick.x k) (Brick.y k) (Brick.w k) (Brick.h k)
                           "#3b82f6")
             (filter Brick.active (bricks g))
        ++ [FillRect (Paddle.x (paddle g)) (Paddle.y (paddle g))
              (Paddle.w (paddle g)) (Paddle.h (paddle g)) "#fff";
            FillCircle (Ball.x (ball g)) (Ball.y (ball g)) (Ball.r (ball g)) "#fff"]
      /\ length (draw g) = (5 + activeCount (bricks g))%nat)
  /\ (is_over (state g) = true ->
      forall c, In c (tl (draw g)) ->
        exists text x y size color align, c = FillText text x y size color align).
Proof.
  split; [unfold draw; destruct (state g); reflexivity |].
  split.
  - intros Hp. unfold draw. rewrite Hp. rewrite drawBricks_filter.
    split; [reflexivity |].
    rewrite !length_app, length_map. unfold activeCount. cbn [length]. lia.
  - intros O c Hin. unfold draw in Hin.
    destruct (state g); try discriminate; cbn [tl In drawText] in Hin;
      repeat (destruct Hin as [<- | Hin]; [do 6 eexists; reflexivity |]);
      destruct Hin.
Qed.

Lemma draw_shows_active_bricks_witness :
  let g := handle 0.75 (EvKeyDown KeyEnter) initial in
  length (draw g) = 45%nat
  /\ (forall c, In c (tl (draw initial)) ->
        exists text x y size color align, c = FillText text x y size color align).
Proof.
  intros g.
  destruct (draw_shows_active_bricks g) as (_ & Hplay & _).
  destruct (Hplay eq_refl) as [_ Hlen].
  split; [rewrite Hlen; reflexivity |].
  destruct (draw_shows_active_bricks initial) as (_ & _ & Hover).
  apply Hover. reflexivity.
Defined.

(** ** What is never written *)

(** X25.  The ball's radius and the paddle's height above the bottom are
    never written: in every reachable state they are the ones of the
    initial state (6 and [GAME_H - 40]). *)
Theorem radius_and_paddle_row_fixed (g : Game) :
  reachable g ->
  Ball.r (ball g) = Ball.r (ball initial)
  /\ Paddle.y (paddle g) = Paddle.y (paddle initial).
Proof.
  intros H. pose proof (reachable_Inv g H) as I.
  split; [apply (inv_ball_r g I) | apply (inv_paddle_y g I)].
Qed.

Lemma radius_and_paddle_row_fixed_witness :
  let g := handle 0.25 (EvFrame MAX_DT)
             (handle 0.25 (EvPointerMove 300 500 (DOMRect.mk 0 0 360 640))
                (handle 0.25 (EvPointerDown 200 600 (DOMRect.mk 0 0 360 640))
                   (handle 0.75 (EvKeyDown KeyEnter) initial))) in
  Ball.r (ball g) = 6 /\ Paddle.y (paddle g) = GAME_H - 40.
Proof.
  intros g. apply (radius_and_paddle_row_fixed g reachable_sample).
Defined.
